(** * Content negotiation in grafserv: the Accept-header matcher

    A shallow embedding of [grafast/grafserv/src/accept.ts]:
    the server-type digester and the matcher closure of [makeAcceptMatcher],
    [matchesParameters], the character classes, the byte-level state machine
    of [parseAccepts] with its precedence sort, and the LRU the matcher
    closes over.

    Conventions.
    - A header is a string of one-byte code units (HTTP header values reach
      the matcher decoded as latin1); [charCodeAt] is the code of the byte.
    - An object made by [Object.create(null)] and used as a dictionary is a
      [gmap string _]: it has no inherited keys, and the code only reads,
      writes, deletes, counts and enumerates its own keys.
    - [throw] is the [Throw] outcome of the [result] type.
    - A finite JS number is the rational it denotes. *)

From Stdlib Require Import QArith Ascii String.
From stdpp Require Import base option list strings gmap fin_maps sorting.

Local Open Scope string_scope.
Local Open Scope Z_scope.

(** ** The pieces of the JS runtime the module relies on *)

Module JS.

(** [s.charCodeAt(i)] for the byte [c] found at position [i]. *)
Definition charCode (c : ascii) : Z := Z.of_N (Ascii.N_of_ascii c).

(** [s[i]]: the one-character string at a position. *)
Definition char (c : ascii) : string := String c EmptyString.

(** [s.split(sep)] for a one-character separator: the pieces between the
    occurrences of [sep]; there is always at least one piece. *)
Fixpoint split (sep : ascii) (s : string) : list string :=
  match s with
  | EmptyString => [EmptyString]
  | String c rest =>
      if Ascii.eqb c sep then EmptyString :: split sep rest
      else match split sep rest with
           | piece :: pieces => String c piece :: pieces
           | [] => [String c EmptyString]
           end
  end.

(** *** Numbers

    A JS number is a binary64 float.  The matcher only compares numbers
    and tests them for NaN, so a finite number is represented by the
    rational it denotes (the sign of zero, which no comparison observes,
    is dropped). *)
Inductive number : Type :=
  | NaN
  | PosInfinity
  | NegInfinity
  | Finite (x : Q).

Definition isNaN (n : number) : bool :=
  match n with NaN => true | _ => false end.

Definition Qltb (x y : Q) : bool :=
  (Qnum x * Z.pos (Qden y) <? Qnum y * Z.pos (Qden x))%Z.

(** [a < b]; any comparison with NaN is false. *)
Definition lt (a b : number) : bool :=
  match a, b with
  | NaN, _ | _, NaN => false
  | _, NegInfinity => false
  | NegInfinity, _ => true
  | PosInfinity, _ => false
  | Finite _, PosInfinity => true
  | Finite x, Finite y => Qltb x y
  end.

(** [a > b]. *)
Definition gt (a b : number) : bool := lt b a.

Definition zero : number := Finite 0.
Definition one : number := Finite 1.

(** Round the non-negative rational [n/d] to the nearest binary64 value,
    ties to even; magnitudes that round to [2^1024] or more overflow. *)
Definition roundHalfEven (n d : Z) : Z :=
  let k := n / d in
  match 2 * (n mod d) ?= d with
  | Lt => k
  | Gt => k + 1
  | Eq => if Z.even k then k else k + 1
  end.

(** [n/d * 2^(-e)] as a fraction. *)
Definition scale2 (n d e : Z) : Z * Z :=
  if 0 <=? e then (n, d * 2 ^ e) else (n * 2 ^ (- e), d).

Definition toNumber (neg : bool) (n d : Z) : number :=
  if n =? 0 then Finite 0
  else
    let e0 := Z.log2 n - Z.log2 d in
    let '(n0, d0) := scale2 n d e0 in
    let e := if n0 <? d0 then e0 - 1 else e0 in
    let ulp := Z.max e (-1022) - 52 in
    let '(n1, d1) := scale2 n d ulp in
    let m := roundHalfEven n1 d1 in
    if (0 <=? ulp) && (2 ^ 1024 <=? m * 2 ^ ulp) then
      if neg then NegInfinity else PosInfinity
    else
      let x := if 0 <=? ulp then inject_Z (m * 2 ^ ulp)
               else Qmake m (Z.to_pos (2 ^ (- ulp))) in
      Finite (Qred (if neg then Qopp x else x)).

(** *** [parseFloat]

    Leading white space is skipped; the longest prefix that is a
    [StrDecimalLiteral] is converted; NaN when there is none. *)
Definition isStrWhiteSpaceChar (c : ascii) : bool :=
  let n := charCode c in
  ((9 <=? n) && (n <=? 13)) || (n =? 32) || (n =? 160).

Fixpoint trimStart (s : string) : string :=
  match s with
  | String c rest => if isStrWhiteSpaceChar c then trimStart rest else s
  | EmptyString => s
  end.

Definition digitValue (c : ascii) : option Z :=
  let n := charCode c in
  if (48 <=? n) && (n <=? 57) then Some (n - 48) else None.

(** Consume decimal digits: the value read so far, how many digits were
    read, and what is left. *)
Fixpoint digits (acc : Z) (count : nat) (s : string) : Z * nat * string :=
  match s with
  | String c rest =>
      match digitValue c with
      | Some d => digits (10 * acc + d) (S count) rest
      | None => (acc, count, s)
      end
  | EmptyString => (acc, count, s)
  end.

(** An exponent part counts only when it has at least one digit. *)
Definition exponentPart (s : string) : Z :=
  match s with
  | String c rest =>
      if Ascii.eqb c "e" || Ascii.eqb c "E" then
        let '(neg, rest') :=
          match rest with
          | String "+" r => (false, r)
          | String "-" r => (true, r)
          | _ => (false, rest)
          end in
        let '(v, k, _) := digits 0 0 rest' in
        match k with
        | O => 0
        | S _ => if neg then - v else v
        end
      else 0
  | EmptyString => 0
  end.

Definition unsignedLiteral (neg : bool) (s : string) : number :=
  if String.prefix "Infinity" s then
    if neg then NegInfinity else PosInfinity
  else
    let '(ip, ik, r1) := digits 0 0 s in
    let '(m, fk, r2) :=
      match r1 with
      | String "." r => digits ip 0 r
      | _ => (ip, O, r1)
      end in
    match (ik + fk)%nat with
    | O => NaN
    | S _ =>
        let e := exponentPart r2 - Z.of_nat fk in
        if 0 <=? e then toNumber neg (m * 10 ^ e) 1
        else toNumber neg m (10 ^ (- e))
    end.

Definition parseFloat (s : string) : number :=
  match trimStart s with
  | String "+" r => unsignedLiteral false r
  | String "-" r => unsignedLiteral true r
  | r => unsignedLiteral false r
  end.

(** *** Values that a function of the module returns or caches *)
Inductive value : Type :=
  | Undefined
  | Null
  | Str (s : string).

End JS.

(** ** Errors and outcomes *)

(** The errors [parseAccepts] can raise, by the message of the [throw]. *)
Inductive error : Type :=
  | QOutOfRange                        (* "q out of range" *)
  | ExpectedSlashAfterAsterisk         (* "Expected '/' after '*'" *)
  | UnexpectedCharacter (c : ascii)    (* "Unexpected character 'c'" *)
  | UnexpectedTerminatingBackslash     (* "Unexpected terminating backslash" *)
  | NullDereference.                   (* [currentAccept!] on [null] *)

Inductive result (A : Type) : Type :=
  | Return (a : A)
  | Throw (e : error).
Arguments Return {A} a.
Arguments Throw {A} e.

(** Sequencing: a [throw] leaves through every enclosing statement. *)
#[global] Instance result_ret : MRet result := fun _ a => Return a.
#[global] Instance result_bind : MBind result := fun _ _ k r =>
  match r with
  | Return a => k a
  | Throw e => Throw e
  end.

(** ** Data model *)

(** [interface Accept]. *)
Record Accept : Type := mkAccept {
  type : string;
  subtype : string;
  parameters : gmap string string;
  q : JS.number;
}.

(** [type TypeDigest = Accept & { originalType }]: what the digester stores.
    [split] may leave the subtype and a parameter's value [undefined],
    hence the options. *)
Record TypeDigest : Type := mkTypeDigest {
  digest_type : string;
  digest_subtype : option string;
  digest_parameters : gmap string (option string);
  digest_q : JS.number;
  originalType : string;
}.

(** ** Grammar primitives *)

Definition SPACE : Z := 32.
Definition HORIZONTAL_TAB : Z := 9.
Definition ASTERISK : Z := 42.
Definition SLASH : Z := 47.
Definition COMMA : Z := 44.
Definition SEMICOLON : Z := 59.
Definition EQUALS : Z := 61.
Definition DOUBLE_QUOTE : Z := 34.
Definition BACKSLASH : Z := 92.

Definition WHITESPACE_START : Z := 9.
Definition WHITESPACE_END : Z := 13.

Definition isWhitespace (charCode : Z) : bool :=
  (charCode =? SPACE)
  || ((WHITESPACE_START <=? charCode) && (charCode <=? WHITESPACE_END)).

Definition isOWS (charCode : Z) : bool :=
  (charCode =? SPACE) || (charCode =? HORIZONTAL_TAB).

Definition isToken (charCode : Z) : bool :=
  ((94 <=? charCode) && (charCode <=? 122))
  || ((35 <=? charCode) && (charCode <=? 57)
      && negb (charCode =? 40) && negb (charCode =? 41)
      && negb (charCode =? 44))
  || ((65 <=? charCode) && (charCode <=? 90))
  || (charCode =? 33)
  || (charCode =? 124)
  || (charCode =? 126).

(** ** The Accept parser *)

Inductive State : Type :=
  | EXPECT_TYPE
  | CONTINUE_TYPE
  | EXPECT_SUBTYPE
  | CONTINUE_SUBTYPE
  | EXPECT_COMMA_OR_SEMICOLON
  | EXPECT_PARAMETER_NAME
  | CONTINUE_PARAMETER_NAME
  | EXPECT_PARAMETER_VALUE
  | CONTINUE_PARAMETER_VALUE
  | CONTINUE_QUOTED_PARAMETER_VALUE.

#[global] Instance State_eq_dec : EqDecision State.
Proof. solve_decision. Defined.

(** The variables of [parseAccepts] that the loop and [next] update. *)
Record Parser : Type := mkParser {
  accepts : list Accept;
  state : State;
  currentAccept : option Accept;
  currentParameterName : string;
}.

Definition initial : Parser :=
  {| accepts := []; state := EXPECT_TYPE; currentAccept := None;
     currentParameterName := EmptyString |}.

Definition newAccept (t : string) : Accept :=
  {| type := t; subtype := EmptyString; q := JS.one; parameters := ∅ |}.

Definition set_state (s : State) (p : Parser) : Parser :=
  {| accepts := accepts p; state := s; currentAccept := currentAccept p;
     currentParameterName := currentParameterName p |}.

Definition set_currentAccept (a : option Accept) (p : Parser) : Parser :=
  {| accepts := accepts p; state := state p; currentAccept := a;
     currentParameterName := currentParameterName p |}.

Definition set_currentParameterName (n : string) (p : Parser) : Parser :=
  {| accepts := accepts p; state := state p; currentAccept := currentAccept p;
     currentParameterName := n |}.

Definition set_type (t : string) (a : Accept) : Accept :=
  {| type := t; subtype := subtype a; parameters := parameters a; q := q a |}.

Definition set_subtype (t : string) (a : Accept) : Accept :=
  {| type := type a; subtype := t; parameters := parameters a; q := q a |}.

Definition set_parameters (m : gmap string string) (a : Accept) : Accept :=
  {| type := type a; subtype := subtype a; parameters := m; q := q a |}.

Definition set_q (n : JS.number) (a : Accept) : Accept :=
  {| type := type a; subtype := subtype a; parameters := parameters a; q := n |}.

(** [currentAccept!.f(...)]: an update of the current range, which must not
    be [null]. *)
Definition withAccept (f : Accept -> Accept) (p : Parser) : result Parser :=
  match currentAccept p with
  | Some a => Return (set_currentAccept (Some (f a)) p)
  | None => Throw NullDereference
  end.

(** [parameters[name] += s]: a key that is not there reads as [undefined],
    which [+=] turns into the text "undefined". *)
Definition appendParameter (name s : string) (m : gmap string string)
  : gmap string string :=
  <[name := default "undefined" (m !! name) ++ s]> m.

(** The string is truthy when it is there and not empty. *)
Definition truthy (o : option string) : bool :=
  match o with
  | Some (String _ _) => true
  | _ => false
  end.

(** The inner function [next]: extract [q], push the range, start over. *)
Definition next (p : Parser) : result Parser :=
  match currentAccept p with
  | None => Throw NullDereference
  | Some a =>
      a' ← (if truthy (parameters a !! "q") then
               let n := JS.parseFloat (default EmptyString (parameters a !! "q")) in
               if JS.isNaN n || JS.lt n JS.zero || JS.gt n JS.one
               then Throw QOutOfRange
               else Return (set_q n (set_parameters (delete "q" (parameters a)) a))
             else Return a);
      Return {| accepts := accepts p ++ [a'];
                state := EXPECT_TYPE;
                currentAccept := None;
                currentParameterName := currentParameterName p |}
  end.

(** The code of the byte at the head of a string: [charCodeAt] there, with
    [None] for the [NaN] past the end. *)
Definition headCode (s : string) : option Z :=
  match s with
  | String c _ => Some (JS.charCode c)
  | EmptyString => None
  end.

Definition tail (s : string) : string :=
  match s with
  | String _ r => r
  | EmptyString => EmptyString
  end.

(** One turn of the [for] loop, at the byte [c] followed by [rest].  The
    second component counts the further bytes the turn consumed with
    [++i]. *)
Definition step (p : Parser) (c : ascii) (rest : string)
  : result (Parser * nat) :=
  let charCode := JS.charCode c in
  let unexpected := Throw (UnexpectedCharacter c) in
  match state p with
  | EXPECT_TYPE =>
      if isWhitespace charCode then Return (p, O)
      else if charCode =? ASTERISK then
        let p1 := set_currentAccept (Some (newAccept "*")) p in
        if negb (bool_decide (headCode rest = Some SLASH)) then
          Throw ExpectedSlashAfterAsterisk
        else if bool_decide (headCode (tail rest) = Some ASTERISK) then
          p2 ← withAccept (set_subtype "*") p1;
          Return (set_state EXPECT_COMMA_OR_SEMICOLON p2, 2%nat)
        else Return (set_state EXPECT_SUBTYPE p1, 1%nat)
      else if isToken charCode then
        Return (set_state CONTINUE_TYPE
                  (set_currentAccept (Some (newAccept (JS.char c))) p), O)
      else unexpected
  | CONTINUE_TYPE =>
      if charCode =? SLASH then Return (set_state EXPECT_SUBTYPE p, O)
      else if isToken charCode then
        p1 ← withAccept (fun a => set_type (type a ++ JS.char c) a) p;
        Return (p1, O)
      else unexpected
  | EXPECT_SUBTYPE =>
      if isToken charCode then
        p1 ← withAccept (set_subtype (JS.char c)) p;
        Return (set_state CONTINUE_SUBTYPE p1, O)
      else unexpected
  | CONTINUE_SUBTYPE =>
      if charCode =? SEMICOLON then
        Return (set_state EXPECT_PARAMETER_NAME p, O)
      else if charCode =? COMMA then
        p1 ← next p; Return (p1, O)
      else if isToken charCode then
        p1 ← withAccept (fun a => set_type (type a ++ JS.char c) a) p;
        Return (p1, O)
      else unexpected
  | EXPECT_COMMA_OR_SEMICOLON =>
      if isWhitespace charCode then Return (p, O)
      else if charCode =? SEMICOLON then
        Return (set_state EXPECT_PARAMETER_NAME p, O)
      else if charCode =? COMMA then
        p1 ← next p; Return (p1, O)
      else unexpected
  | EXPECT_PARAMETER_NAME =>
      if isOWS charCode then Return (p, O)
      else if isToken charCode then
        Return (set_state CONTINUE_PARAMETER_NAME
                  (set_currentParameterName (JS.char c) p), O)
      else unexpected
  | CONTINUE_PARAMETER_NAME =>
      if isToken charCode then
        Return (set_currentParameterName
                  (currentParameterName p ++ JS.char c) p, O)
      else if charCode =? EQUALS then
        p1 ← withAccept
                (fun a => set_parameters
                            (<[currentParameterName p := EmptyString]> (parameters a)) a)
                (set_state EXPECT_PARAMETER_VALUE p);
        Return (p1, O)
      else unexpected
  | EXPECT_PARAMETER_VALUE =>
      if charCode =? DOUBLE_QUOTE then
        Return (set_state CONTINUE_QUOTED_PARAMETER_VALUE p, O)
      else if isToken charCode then
        Return (set_currentParameterName
                  (currentParameterName p ++ JS.char c)
                  (set_state CONTINUE_PARAMETER_VALUE p), O)
      else if charCode =? EQUALS then
        Return (set_state EXPECT_PARAMETER_VALUE p, O)
      else unexpected
  | CONTINUE_QUOTED_PARAMETER_VALUE =>
      if charCode =? DOUBLE_QUOTE then
        Return (set_state EXPECT_COMMA_OR_SEMICOLON p, O)
      else if charCode =? BACKSLASH then
        match rest with
        | EmptyString => Throw UnexpectedTerminatingBackslash
        | String char _ =>
            p1 ← withAccept
                    (fun a => set_parameters
                                (appendParameter (currentParameterName p)
                                   (JS.char char) (parameters a)) a) p;
            Return (p1, 1%nat)
        end
      else
        p1 ← withAccept
                (fun a => set_parameters
                            (appendParameter (currentParameterName p)
                               (JS.char c) (parameters a)) a) p;
        Return (p1, O)
  | CONTINUE_PARAMETER_VALUE =>
      if charCode =? SEMICOLON then
        Return (set_state EXPECT_PARAMETER_NAME p, O)
      else if charCode =? COMMA then
        p1 ← next p; Return (p1, O)
      else if isToken charCode then
        p1 ← withAccept
                (fun a => set_parameters
                            (appendParameter (currentParameterName p)
                               (JS.char c) (parameters a)) a) p;
        Return (p1, O)
      else unexpected
  end.

(** The [for] loop over the header: [skip] bytes were already consumed by
    the previous turn. *)
Fixpoint loop (skip : nat) (p : Parser) (s : string) : result Parser :=
  match s with
  | EmptyString => Return p
  | String c rest =>
      match skip with
      | S k => loop k p rest
      | O => r ← step p c rest; loop (snd r) (fst r) rest
      end
  end.

(** After the loop: commit the range that is still open. *)
Definition finish (p : Parser) : result (list Accept) :=
  if decide (state p = EXPECT_TYPE) then Return (accepts p)
  else p1 ← next p; Return (accepts p1).

Definition score (accept : Accept) : Z :=
  (if String.eqb (type accept) "*" then 0 else 1000)
  + (if String.eqb (subtype accept) "*" then 0 else 1000000)
  + Z.of_nat (size (parameters accept)).

(** [Array.prototype.sort] with a comparator: a stable sort.  An element
    moves behind the ones the comparator puts strictly before it. *)
Section Sort.
Context {A : Type} (compare : A -> A -> Z).

Fixpoint insertSorted (x : A) (l : list A) : list A :=
  match l with
  | [] => [x]
  | y :: l' => if 0 <? compare x y then y :: insertSorted x l' else x :: l
  end.

Fixpoint sort (l : list A) : list A :=
  match l with
  | [] => []
  | x :: l' => insertSorted x (sort l')
  end.
End Sort.

Definition parseAccepts (acceptHeader : string) : result (list Accept) :=
  p ← loop 0 initial acceptHeader;
  l ← finish p;
  Return (sort (fun a z => score z - score a) l).

(** ** The server-type digester *)

(** [const [key, val] = param.split("=")]. *)
Definition digestParameter (param : string) : string * option string :=
  match JS.split "=" param with
  | key :: val :: _ => (key, Some val)
  | [key] => (key, None)
  | [] => (EmptyString, None)
  end.

(** The body of the [map] callback of [makeAcceptMatcher]. *)
Definition digest (t : string) : TypeDigest :=
  let pieces := JS.split ";" t in
  let spec := hd EmptyString pieces in
  let params := tl pieces in
  let parameters :=
    fold_left (fun m param =>
                 let '(key, val) := digestParameter param in <[key := val]> m)
              params ∅ in
  let types := JS.split "/" spec in
  {| digest_type := hd EmptyString types;
     digest_subtype := head (tl types);
     digest_parameters := parameters;
     digest_q := JS.one;
     originalType := t |}.

(** ** The cache *)

(** Modelled from the spec: the class [LRU] of the package [@graphile/lru],
    which the matcher imports and whose source is not part of the files
    at hand.  A bounded mapping from header string to answer; the entries
    are kept most recently used first; a lookup that finds its key moves
    the entry to the front (a lookup that does not, changes nothing); an
    insertion puts the entry in front and, on overflow, evicts the least
    recently used one. *)
Module LRU.

Record t : Type := mk {
  maxLength : nat;
  entries : list (string * JS.value);
}.

Definition new (maxLength : nat) : t :=
  {| maxLength := maxLength; entries := [] |}.

Definition lookup (key : string) (c : t) : option JS.value :=
  snd <$> List.find (fun e => String.eqb (fst e) key) (entries c).

Definition remove (key : string) (l : list (string * JS.value))
  : list (string * JS.value) :=
  List.filter (fun e => negb (String.eqb (fst e) key)) l.

(** [lru.get(key)]: the value, [undefined] when there is none, and the
    cache afterwards. *)
Definition get (key : string) (c : t) : JS.value * t :=
  match lookup key c with
  | Some v =>
      (v, {| maxLength := maxLength c;
             entries := (key, v) :: remove key (entries c) |})
  | None => (JS.Undefined, c)
  end.

(** [lru.set(key, value)]. *)
Definition set (key : string) (v : JS.value) (c : t) : t :=
  {| maxLength := maxLength c;
     entries := take (maxLength c) ((key, v) :: remove key (entries c)) |}.

End LRU.

(** ** The matcher *)

Definition matchesParameters (required : gmap string string)
    (given : gmap string (option string)) : bool :=
  forallb (fun kv => bool_decide (mjoin (given !! kv.1) = Some kv.2))
          (map_to_list required).

(** The predicate handed to [specs.find]. *)
Definition specMatches (digest : TypeDigest) (spec : Accept) : bool :=
  String.eqb (type spec) "*"
  || (String.eqb (type spec) (digest_type digest)
      && (String.eqb (subtype spec) "*"
          || (bool_decide (Some (subtype spec) = digest_subtype digest)
              && matchesParameters (parameters spec)
                   (digest_parameters digest)))).

(** [!bestMediaType] for a value that is [null] or a string. *)
Definition falsy (v : JS.value) : bool :=
  match v with
  | JS.Str (String _ _) => false
  | _ => true
  end.

(** One turn of the loop over [typeDigests], on the pair
    [(bestQ, bestMediaType)]. *)
Definition consider (specs : list Accept) (best : JS.number * JS.value)
    (digest : TypeDigest) : JS.number * JS.value :=
  match List.find (specMatches digest) specs with
  | Some highestPrecedenceSpecMatch =>
      if falsy best.2 || JS.gt (q highestPrecedenceSpecMatch) best.1
      then (q highestPrecedenceSpecMatch, JS.Str (originalType digest))
      else best
  | None => best
  end.

Definition bestMediaType (typeDigests : list TypeDigest)
    (specs : list Accept) : JS.value :=
  (fold_left (consider specs) typeDigests (JS.zero, JS.Null)).2.

(** What [makeAcceptMatcher] returns: the closure [preferredAccept] with
    the variables it captured. *)
Record Matcher : Type := mkMatcher {
  mediaTypes : list string;
  typeDigests : list TypeDigest;
  lru : LRU.t;
}.

Definition makeAcceptMatcher (mediaTypes : list string) : Matcher :=
  {| mediaTypes := mediaTypes;
     typeDigests := map digest mediaTypes;
     lru := LRU.new 50 |}.

Definition set_lru (c : LRU.t) (m : Matcher) : Matcher :=
  {| mediaTypes := mediaTypes m; typeDigests := typeDigests m; lru := c |}.

(** A call of the closure: what it returns or throws, and the matcher
    afterwards.  [None] is the [undefined] header. *)
Definition preferredAccept (m : Matcher) (acceptHeader : option string)
  : result JS.value * Matcher :=
  match acceptHeader with
  | None =>
      (Return (match mediaTypes m with
               | t :: _ => JS.Str t
               | [] => JS.Undefined
               end), m)
  | Some acceptHeader =>
      let '(existing, c) := LRU.get acceptHeader (lru m) in
      match existing with
      | JS.Undefined =>
          match parseAccepts acceptHeader with
          | Throw e => (Throw e, set_lru c m)
          | Return specs =>
              let best := bestMediaType (typeDigests m) specs in
              (Return best, set_lru (LRU.set acceptHeader best c) m)
          end
      | _ => (Return existing, set_lru c m)
      end
  end.

(** ** Predicates of the statements *)

(** The ranges a parser holds: the ones pushed and the one that is open. *)
Definition ranges_ok (I : Accept -> Prop) (p : Parser) : Prop :=
  Forall I (accepts p) /\ (forall a, currentAccept p = Some a -> I a).

(** Every byte of the string has a code in the class [P]. *)
Fixpoint allCodes (P : Z -> bool) (s : string) : bool :=
  match s with
  | EmptyString => true
  | String c r => P (JS.charCode c) && allCodes P r
  end.

(** What the parser can leave in [subtype] next to the type "*". *)
Definition subtypeAfterAsterisk (s : string) : Prop :=
  s = "*" \/ (allCodes isToken s = true /\ headCode s <> Some ASTERISK).

(** The shape the parser keeps for every range it holds. *)
Definition wildcardShape (a : Accept) : Prop :=
  type a <> EmptyString
  /\ (type a = "*" -> subtypeAfterAsterisk (subtype a)).

(** A media type string whose digest has the type "*": the string "*"
    itself, or one that begins with "*/" or "*;". *)
Definition offersWildcard (t : string) : bool :=
  match t with
  | String "*" EmptyString => true
  | String "*" (String "/" _) => true
  | String "*" (String ";" _) => true
  | _ => false
  end.

(** A quality value the parser lets through: a number from 0 to 1. *)
Definition unitQ (n : JS.number) : Prop :=
  exists x : Q, n = JS.Finite x /\ (0 <= x)%Q /\ (x <= 1)%Q.

(** The range a server type is matched by: the first one, in the order the
    parser returned, that matches its digest. *)
Definition firstMatch (specs : list Accept) (t : string) : option Accept :=
  List.find (specMatches (digest t)) specs.

(** How many of the two components of a range are not "*". *)
Definition nonWildcards (a : Accept) : nat :=
  ((if String.eqb (type a) "*" then 0 else 1)
   + (if String.eqb (subtype a) "*" then 0 else 1))%nat.

(** "Strictly more specific", in the words of the precedence property:
    more components that are not "*", or as many and a strict superset of
    parameters. *)
Definition moreSpecific_stated (a b : Accept) : Prop :=
  (nonWildcards b < nonWildcards a)%nat
  \/ (nonWildcards a = nonWildcards b /\ parameters b ⊂ parameters a).

(** The two ranges have "*" in the same components. *)
Definition sameWildcards (a b : Accept) : Prop :=
  (type a = "*" <-> type b = "*") /\ (subtype a = "*" <-> subtype b = "*").

(** The relation for which the score is monotone: the less specific range
    has fewer than 1000 parameters when the components decide, and the two
    ranges have "*" in the same places when the parameters decide. *)
Definition moreSpecific (a b : Accept) : Prop :=
  ((nonWildcards b < nonWildcards a)%nat
   /\ (size (parameters b) < 1000)%nat)
  \/ (sameWildcards a b /\ parameters b ⊂ parameters a).

(** ** The grammar of the state machine *)

(** The bytes of a header without quoted values: token bytes, the four
    separators, and optional white space. *)
Definition grammarByte (charCode : Z) : bool :=
  isToken charCode
  || (charCode =? SLASH) || (charCode =? SEMICOLON)
  || (charCode =? EQUALS) || (charCode =? COMMA)
  || isOWS charCode.

(** The order of bytes the state machine permits: the transitions of the
    [switch] of [parseAccepts] on the state alone, with [false] where the
    code raises "Unexpected character", "Expected '/' after '*'" or
    "Unexpected terminating backslash", and the end of the input accepted
    in every state.  No range is built here. *)
Fixpoint permitted (st : State) (s : string) : bool :=
  match s with
  | EmptyString => true
  | String c rest =>
      let n := JS.charCode c in
      match st with
      | EXPECT_TYPE =>
          if isWhitespace n then permitted EXPECT_TYPE rest
          else if n =? ASTERISK then
            match rest with
            | String c1 rest1 =>
                if JS.charCode c1 =? SLASH then
                  match rest1 with
                  | String c2 rest2 =>
                      if JS.charCode c2 =? ASTERISK
                      then permitted EXPECT_COMMA_OR_SEMICOLON rest2
                      else permitted EXPECT_SUBTYPE rest1
                  | EmptyString => true
                  end
                else false
            | EmptyString => false
            end
          else if isToken n then permitted CONTINUE_TYPE rest
          else false
      | CONTINUE_TYPE =>
          if n =? SLASH then permitted EXPECT_SUBTYPE rest
          else if isToken n then permitted CONTINUE_TYPE rest
          else false
      | EXPECT_SUBTYPE =>
          if isToken n then permitted CONTINUE_SUBTYPE rest else false
      | CONTINUE_SUBTYPE =>
          if n =? SEMICOLON then permitted EXPECT_PARAMETER_NAME rest
          else if n =? COMMA then permitted EXPECT_TYPE rest
          else if isToken n then permitted CONTINUE_SUBTYPE rest
          else false
      | EXPECT_COMMA_OR_SEMICOLON =>
          if isWhitespace n then permitted EXPECT_COMMA_OR_SEMICOLON rest
          else if n =? SEMICOLON then permitted EXPECT_PARAMETER_NAME rest
          else if n =? COMMA then permitted EXPECT_TYPE rest
          else false
      | EXPECT_PARAMETER_NAME =>
          if isOWS n then permitted EXPECT_PARAMETER_NAME rest
          else if isToken n then permitted CONTINUE_PARAMETER_NAME rest
          else false
      | CONTINUE_PARAMETER_NAME =>
          if isToken n then permitted CONTINUE_PARAMETER_NAME rest
          else if n =? EQUALS then permitted EXPECT_PARAMETER_VALUE rest
          else false
      | EXPECT_PARAMETER_VALUE =>
          if n =? DOUBLE_QUOTE
          then permitted CONTINUE_QUOTED_PARAMETER_VALUE rest
          else if isToken n then permitted CONTINUE_PARAMETER_VALUE rest
          else if n =? EQUALS then permitted EXPECT_PARAMETER_VALUE rest
          else false
      | CONTINUE_QUOTED_PARAMETER_VALUE =>
          if n =? DOUBLE_QUOTE then permitted EXPECT_COMMA_OR_SEMICOLON rest
          else if n =? BACKSLASH then
            match rest with
            | String _ rest1 => permitted CONTINUE_QUOTED_PARAMETER_VALUE rest1
            | EmptyString => false
            end
          else permitted CONTINUE_QUOTED_PARAMETER_VALUE rest
      | CONTINUE_PARAMETER_VALUE =>
          if n =? SEMICOLON then permitted EXPECT_PARAMETER_NAME rest
          else if n =? COMMA then permitted EXPECT_TYPE rest
          else if isToken n then permitted CONTINUE_PARAMETER_VALUE rest
          else false
      end
  end.

(** The string after its first [k] bytes. *)
Fixpoint dropBytes (k : nat) (s : string) : string :=
  match k, s with
  | S k', String _ rest => dropBytes k' rest
  | _, _ => s
  end.

(** What holds of the parser while the header has no double quote: outside
    [EXPECT_TYPE] a range is open, its parameter [q] is absent or empty,
    and the name under which a value is collected is not [q]. *)
Definition unquotedInv (p : Parser) : Prop :=
  match state p with
  | EXPECT_TYPE => True
  | CONTINUE_QUOTED_PARAMETER_VALUE => False
  | st =>
      (exists a, currentAccept p = Some a
                 /\ truthy (parameters a !! "q") = false)
      /\ match st with
         | CONTINUE_PARAMETER_NAME | EXPECT_PARAMETER_VALUE =>
             currentParameterName p <> EmptyString
         | CONTINUE_PARAMETER_VALUE => currentParameterName p <> "q"
         | _ => True
         end
  end.

(** A range was pushed or is open. *)
Definition started (p : Parser) : Prop :=
  accepts p <> [] \/ state p <> EXPECT_TYPE.

(** ** The matchers a program can hold *)

(** A matcher is what [makeAcceptMatcher] returned, after any number of
    calls with any headers. *)
Inductive reachable (offered : list string) : Matcher -> Prop :=
  | reachable_new : reachable offered (makeAcceptMatcher offered)
  | reachable_call (m : Matcher) (header : option string) :
      reachable offered m ->
      reachable offered (preferredAccept m header).2.

(** The cache holds answers only: each entry is a header that parses, with
    what the digests answer to it. *)
Definition answers (ds : list TypeDigest) (e : string * JS.value) : Prop :=
  exists specs,
    parseAccepts e.1 = Return specs /\ e.2 = bestMediaType ds specs.

(** What holds of every matcher a program can hold. *)
Definition matcher_ok (offered : list string) (m : Matcher) : Prop :=
  mediaTypes m = offered
  /\ typeDigests m = map digest offered
  /\ Forall (answers (typeDigests m)) (LRU.entries (lru m)).

(** ** Particular inputs *)

(** The server list of the end-to-end scenarios. *)
Definition servers : list string :=
  ["application/json"; "application/graphql-response+json"; "text/html"].

(** A double-quoted string, as it appears in a header. *)
Definition quoted (s : string) : string :=
  String (Ascii.ascii_of_N 34) (s ++ String (Ascii.ascii_of_N 34) EmptyString).

(** A range with the default [q]. *)
Definition range (t s : string) (m : gmap string string) : Accept :=
  {| type := t; subtype := s; parameters := m; q := JS.one |}.

(** The parser right after [a/b;c=]. *)
Definition afterEquals : Parser :=
  {| accepts := [];
     state := EXPECT_PARAMETER_VALUE;
     currentAccept :=
       Some {| type := "a"; subtype := "b";
               parameters := {[ "c" := EmptyString ]}; q := JS.one |};
     currentParameterName := "c" |}.

(** The decimal digits of a number below 1000, for parameter names. *)
Definition digit (n : nat) : ascii := ascii_of_nat (48 + n mod 10).

Definition digits3 (n : nat) : string :=
  String (digit (n / 100)) (String (digit (n / 10)) (String (digit n) EmptyString)).

(** The parameters [;p000=1;p001=1;...] with [k] different names. *)
Definition manyParameters (k : nat) : string :=
  String.concat EmptyString
    (map (fun n => ";p" ++ digits3 n ++ "=1") (seq 0 k)).

(** [a/*] and [*/*] with a thousand parameters. *)
Definition wideHeader : string := "a/*,*/*" ++ manyParameters 1000.

(** What [parseAccepts] returns, with no ranges for a header it rejects. *)
Definition rangesOf (h : string) : list Accept :=
  match parseAccepts h with
  | Return l => l
  | Throw _ => []
  end.

(** The range at a position of that list. *)
Definition nthRange (h : string) (i : nat) : Accept :=
  nth i (rangesOf h) (newAccept EmptyString).

(** * Further definitions *)

(** ** What the parser returns *)

(** A non-empty run of token bytes. *)
Definition tokenString (s : string) : Prop :=
  s <> EmptyString /\ allCodes isToken s = true.

(** The parts of a range that the parser builds from token bytes. *)
Definition rangeTokens (a : Accept) : Prop :=
  tokenString (type a)
  /\ allCodes isToken (subtype a) = true
  /\ map_Forall (fun name _ => tokenString name) (parameters a).

(** The ranges are built from token bytes, and so is the parameter name
    while a name or a value is read. *)
Definition tokensInv (p : Parser) : Prop :=
  ranges_ok rangeTokens p
  /\ match state p with
     | CONTINUE_PARAMETER_NAME | EXPECT_PARAMETER_VALUE
     | CONTINUE_PARAMETER_VALUE | CONTINUE_QUOTED_PARAMETER_VALUE =>
         tokenString (currentParameterName p)
     | _ => True
     end.

(** How many bytes of the string have the code [n]. *)
Fixpoint countCode (n : Z) (s : string) : nat :=
  match s with
  | EmptyString => O
  | String c rest =>
      if JS.charCode c =? n then S (countCode n rest) else countCode n rest
  end.

(** Whether some range of the header matches the server type. *)
Definition matched (specs : list Accept) (t : string) : bool :=
  match firstMatch specs t with
  | Some _ => true
  | None => false
  end.

(** ** Writing a header *)

(** The text of a quoted value: a backslash goes before every double quote
    and every backslash. *)
Fixpoint escape (v : string) : string :=
  match v with
  | EmptyString => EmptyString
  | String c rest =>
      if (JS.charCode c =? DOUBLE_QUOTE) || (JS.charCode c =? BACKSLASH)
      then String "\" (String c (escape rest))
      else String c (escape rest)
  end.

(** The double quote. *)
Definition dquote : ascii := Ascii.ascii_of_N 34.

(** A parameter with a quoted value up to the end of the value, with the
    closing quote still to come. *)
Definition openParameterText (kv : string * string) : string :=
  ";" ++ kv.1 ++ String "=" (String dquote (escape kv.2)).

(** A parameter with a quoted value, name, equals sign and value between
    double quotes after a semicolon. *)
Definition parameterText (kv : string * string) : string :=
  openParameterText kv ++ String dquote EmptyString.

Definition parametersText (params : list (string * string)) : string :=
  fold_right (fun kv s => parameterText kv ++ s) EmptyString params.

(** The range of a type with the subtype "*" and quoted parameters. *)
Definition rangeText (t : string) (params : list (string * string)) : string :=
  t ++ "/*" ++ parametersText params.

(** The name of a type as the parser reads it up to the slash: token
    bytes, none of them a slash, the first one not an asterisk. *)
Definition typeName (t : string) : Prop :=
  t <> EmptyString
  /\ allCodes (fun n => isToken n && negb (n =? SLASH)) t = true
  /\ headCode t <> Some ASTERISK.

(** Parameters written one after the other into a dictionary. *)
Definition assign {V : Type} (params : list (string * V))
    (m : gmap string V) : gmap string V :=
  fold_left (fun m kv => <[kv.1 := kv.2]> m) params m.
(** An element of a header as a client writes it: white space, a type,
    the subtype "*", and parameters with quoted values. *)
Record Element : Type := mkElement {
  leading : string;
  typeOf : string;
  quotedParameters : list (string * string);
}.

Definition elementText (e : Element) : string :=
  leading e ++ rangeText (typeOf e) (quotedParameters e).

(** The elements with commas between them. *)
Fixpoint headerText (es : list Element) : string :=
  match es with
  | [] => EmptyString
  | [e] => elementText e
  | e :: es' => elementText e ++ String "," (headerText es')
  end.

(** The range an element stands for. *)
Definition elementRange (e : Element) : Accept :=
  range (typeOf e) "*" (assign (quotedParameters e) ∅).

(** An element the parser reads as written: the white space is white
    space, the type is a type name, the parameter names are tokens, and
    none of them is [q]. *)
Definition wellFormed (e : Element) : Prop :=
  allCodes isWhitespace (leading e) = true
  /\ typeName (typeOf e)
  /\ Forall (fun kv => tokenString kv.1 /\ kv.1 <> "q") (quotedParameters e).

(** The parser after a range was read up to its last parameter. *)
Definition reading (p : Parser) (accepted : list Accept) (a : Accept) : Prop :=
  (state p = CONTINUE_SUBTYPE \/ state p = EXPECT_COMMA_OR_SEMICOLON)
  /\ accepts p = accepted /\ currentAccept p = Some a.

(** Elements each followed by a comma: the part of a header before a
    further element. *)
Definition elementsText (es : list Element) : string :=
  fold_right (fun e s => elementText e ++ String "," s) EmptyString es.

(** ** Writing a server type *)

(** No byte of the string has the code [n]. *)
Definition noCode (n : Z) (s : string) : bool :=
  allCodes (fun c => negb (c =? n)) s.

(** A parameter of a server type, [;name=value]. *)
Definition mediaParameterText (kv : string * string) : string :=
  ";" ++ kv.1 ++ String "=" kv.2.

(** A server type: type, slash, subtype, parameters. *)
Definition mediaTypeText (t s : string) (params : list (string * string))
  : string :=
  t ++ String "/" (s ++ fold_right (fun kv r => mediaParameterText kv ++ r)
                          EmptyString params).

(** The parts of a server type that the digester gives back as written:
    no slash and no semicolon in the type and the subtype, no semicolon
    and no equals sign in the names and the values. *)
Definition plainMediaType (t s : string) (params : list (string * string))
  : Prop :=
  noCode SLASH t = true /\ noCode SEMICOLON t = true
  /\ noCode SLASH s = true /\ noCode SEMICOLON s = true
  /\ Forall (fun kv => noCode SEMICOLON kv.1 = true
                       /\ noCode EQUALS kv.1 = true
                       /\ noCode SEMICOLON kv.2 = true
                       /\ noCode EQUALS kv.2 = true) params.

(** ** The open range *)

(** Outside [EXPECT_TYPE] a range is open. *)
Definition openInv (p : Parser) : Prop :=
  state p <> EXPECT_TYPE -> currentAccept p <> None.

(** * Properties *)

(** ** The model at work *)

Example split_demo :
  JS.split ";" "a/b;c=d;e" = ["a/b"; "c=d"; "e"] /\ JS.split "/" EmptyString = [EmptyString].
Proof. split; reflexivity. Qed.

Example parseFloat_demo :
  JS.parseFloat "0.5" = JS.Finite (1 # 2)
  /\ JS.parseFloat " 1e0x" = JS.Finite 1
  /\ JS.parseFloat "0.1" = JS.Finite (3602879701896397 # 36028797018963968)
  /\ JS.parseFloat "1.00000000000000000001" = JS.Finite 1
  /\ JS.parseFloat "-.5e1" = JS.Finite (-5 # 1)
  /\ JS.parseFloat "1e400" = JS.PosInfinity
  /\ JS.parseFloat "5e-324" = JS.Finite (1 # Pos.pow 2 1074)
  /\ JS.parseFloat "2e-324" = JS.Finite 0
  /\ JS.parseFloat "1.7976931348623157e308" = JS.Finite (inject_Z ((2 ^ 53 - 1) * 2 ^ 971))
  /\ JS.parseFloat "1.7976931348623159e308" = JS.PosInfinity
  /\ JS.parseFloat "." = JS.NaN
  /\ JS.parseFloat "abc" = JS.NaN
  /\ JS.parseFloat EmptyString = JS.NaN.
Proof. repeat split; vm_compute; reflexivity. Qed.

Example parse_demo :
  parseAccepts ("text/html;level=1, */*;q=" ++ quoted "0.5") =
    Return [ {| type := "texttml"; subtype := "h";
                parameters := {[ "level" := EmptyString ]}; q := JS.one |};
             {| type := "*"; subtype := "*"; parameters := ∅;
                q := JS.Finite (1 # 2) |} ].
Proof. vm_compute. reflexivity. Qed.

Example select_demo :
  (preferredAccept (makeAcceptMatcher servers) None).1
    = Return (JS.Str "application/json")
  /\ (preferredAccept (makeAcceptMatcher servers) (Some "*/*")).1
    = Return (JS.Str "application/json")
  /\ (preferredAccept (makeAcceptMatcher servers) (Some "application/*")).1
    = Return (JS.Str "application/json")
  /\ (preferredAccept (makeAcceptMatcher servers) (Some "application/xml")).1
    = Return JS.Null
  /\ (preferredAccept (makeAcceptMatcher servers)
        (Some "not a valid header!!!")).1
    = Throw (UnexpectedCharacter " ").
Proof. repeat split; vm_compute; reflexivity. Qed.

(** ** Facts about strings *)

Lemma append_String (a : ascii) (s t : string) :
  String a s ++ t = String a (s ++ t).
Proof. reflexivity. Qed.

Lemma append_not_empty (s : string) (c : ascii) : s ++ JS.char c <> EmptyString.
Proof. destruct s; [done|]. by rewrite append_String. Qed.

Lemma append_char_not_single (s : string) (c x : ascii) :
  s <> EmptyString -> s ++ JS.char c <> String x EmptyString.
Proof.
  destruct s as [|a [|b s]]; [done| |]; intros _;
    rewrite !append_String; unfold JS.char; intros [=].
Qed.

Lemma charCode_inj (c d : ascii) : JS.charCode c = JS.charCode d -> c = d.
Proof.
  unfold JS.charCode. intros H%(inj Z.of_N).
  by rewrite <- (ascii_N_embedding c), H, ascii_N_embedding.
Qed.

Lemma headCode_test (o : option Z) (y : Z) :
  bool_decide (o = Some y) = match o with Some x => x =? y | None => false end.
Proof.
  destruct o as [x|]; [|done].
  destruct (Z.eqb_spec x y) as [->|Hne].
  - by apply bool_decide_eq_true_2.
  - apply bool_decide_eq_false_2. congruence.
Qed.

(** ** Invariants of the parser loop *)

Lemma set_state_same (p : Parser) : set_state (state p) p = p.
Proof. by destruct p. Qed.

Lemma withAccept_Return (f : Accept -> Accept) (p p' : Parser) :
  withAccept f p = Return p' ->
  exists a, currentAccept p = Some a
            /\ p' = set_currentAccept (Some (f a)) p.
Proof.
  unfold withAccept. destruct (currentAccept p) as [a|]; [|done].
  intros [= <-]. by exists a.
Qed.

(** What [next] leaves behind when it returns: the open range is pushed,
    either as it was, or with its [q] parsed and moved. *)
Lemma next_Return (p p' : Parser) :
  next p = Return p' ->
  exists a a',
    currentAccept p = Some a
    /\ p' = {| accepts := accepts p ++ [a']; state := EXPECT_TYPE;
               currentAccept := None;
               currentParameterName := currentParameterName p |}
    /\ type a' = type a /\ subtype a' = subtype a
    /\ ((truthy (parameters a !! "q") = false /\ a' = a)
        \/ (exists n, truthy (parameters a !! "q") = true
                      /\ JS.isNaN n = false /\ JS.lt n JS.zero = false
                      /\ JS.gt n JS.one = false
                      /\ a' = set_q n (set_parameters
                                         (delete "q" (parameters a)) a))).
Proof.
  unfold next. destruct (currentAccept p) as [a|]; [|done].
  destruct (truthy (parameters a !! "q")) eqn:Hq; cbn.
  - destruct (JS.isNaN _ || _ || _) eqn:Hn; cbn; [done|].
    apply orb_false_iff in Hn as [Hn H1]. apply orb_false_iff in Hn as [Hn H0].
    intros [= <-]. eexists a, _. repeat split. right. eauto 10.
  - intros [= <-]. exists a, a. repeat split. by left.
Qed.

Section LoopInvariant.
Variable Inv : Parser -> Prop.
Hypothesis step_preserves :
  forall p c rest p' k, Inv p -> step p c rest = Return (p', k) -> Inv p'.

Lemma loop_preserves (s : string) :
  forall skip p p', Inv p -> loop skip p s = Return p' -> Inv p'.
Proof.
  induction s as [|c rest IH]; intros skip p p' HI; cbn.
  - by intros [= <-].
  - destruct skip as [|k]; [|by apply IH].
    destruct (step p c rest) as [[p1 k]|e] eqn:Hs; cbn; [|done].
    apply IH. by eapply step_preserves.
Qed.
End LoopInvariant.

(** Taking a turn of the loop apart: every way [step] can return. *)
Ltac invert_step H :=
  unfold step in H;
  repeat (first
    [ match type of H with
      | context [match state ?p with _ => _ end] => destruct (state p) eqn:?
      | context [if ?b then _ else _] => destruct b eqn:?
      | context [match ?s with EmptyString => _ | String _ _ => _ end] =>
          destruct s eqn:?
      | context [withAccept ?f ?p] =>
          let Hw := fresh "Hw" in
          destruct (withAccept f p) eqn:Hw;
          [apply withAccept_Return in Hw as (? & ? & ->)|]
      | context [next ?p] =>
          let Hn := fresh "Hn" in
          destruct (next p) eqn:Hn
      end
    | progress cbn in H ]);
  try discriminate H;
  try (injection H as <- <-).

Lemma loop_skip (s : string) :
  forall k p, loop k p s = loop 0 p (dropBytes k s).
Proof.
  induction s as [|c rest IH]; intros [|k] p; try done. cbn. apply IH.
Qed.

(** The elements of a sorted list are those of the list. *)
Section SortFacts.
Context {A : Type} (compare : A -> A -> Z).

Lemma insertSorted_Permutation (x : A) (l : list A) :
  insertSorted compare x l ≡ₚ x :: l.
Proof.
  induction l as [|y l IH]; cbn; [done|].
  destruct (0 <? compare x y); [|done].
  rewrite IH. apply Permutation_swap.
Qed.

Lemma sort_Permutation (l : list A) : sort compare l ≡ₚ l.
Proof.
  induction l as [|x l IH]; cbn; [done|].
  by rewrite insertSorted_Permutation, IH.
Qed.
End SortFacts.

Lemma sort_nil_inv {A : Type} (compare : A -> A -> Z) (l : list A) :
  sort compare l = [] -> l = [].
Proof.
  intros H. apply Permutation_nil_r. rewrite <- H.
  symmetry. apply sort_Permutation.
Qed.

(** What a call of [parseAccepts] that returns went through. *)
Lemma parseAccepts_Return (h : string) (l : list Accept) :
  parseAccepts h = Return l ->
  exists p l0,
    loop 0 initial h = Return p
    /\ finish p = Return l0
    /\ l = sort (fun a z => score z - score a) l0.
Proof.
  unfold parseAccepts.
  destruct (loop 0 initial h) as [p|] eqn:Hl; cbn; [|done].
  destruct (finish p) as [l0|] eqn:Hf; cbn; [|done].
  intros [= <-]. eauto.
Qed.

(** A property of ranges that holds of a fresh range and that every update
    of the loop keeps, holds of every range the parser returns. *)
Section RangeInvariant.
Variable I : Accept -> Prop.

Hypothesis step_ok :
  forall p c rest p' k,
    ranges_ok I p -> step p c rest = Return (p', k) -> ranges_ok I p'.
Hypothesis next_ok :
  forall p p', ranges_ok I p -> next p = Return p' -> ranges_ok I p'.

Lemma parseAccepts_ranges (h : string) (l : list Accept) :
  parseAccepts h = Return l -> Forall I l.
Proof.
  intros (p & l0 & Hl & Hf & ->)%parseAccepts_Return.
  rewrite sort_Permutation.
  assert (ranges_ok I p) as Hp.
  { eapply (loop_preserves (ranges_ok I) step_ok); [|exact Hl].
    split; [constructor|]. by intros a [=]. }
  unfold finish in Hf. destruct (decide _).
  - injection Hf as <-. apply Hp.
  - destruct (next p) as [p1|] eqn:Hn; cbn in Hf; [|done].
    injection Hf as <-. by apply (next_ok p p1).
Qed.
End RangeInvariant.

(** ** Scenario 3: the header [text/html] *)

(** C1. The claim is that the matcher built from [servers] answers
    "text/html" to the header "text/html".  The code does not: in
    [CONTINUE_SUBTYPE] the bytes after the first one of the subtype are
    appended to [type], so the header parses to the range
    [texttml/h], which matches no server type, and the answer is [null]. *)
Theorem text_html_selects_null :
  parseAccepts "text/html" =
    Return [ {| type := "texttml"; subtype := "h"; parameters := ∅;
                q := JS.one |} ]
  /\ (preferredAccept (makeAcceptMatcher servers) (Some "text/html")).1
     = Return JS.Null.
Proof. split; vm_compute; reflexivity. Qed.

(** ** The state [EXPECT_PARAMETER_VALUE] *)

(** C2, as stated, fails twice at [afterEquals], which is where the loop
    stands after [a/b;c=].  An equals sign is neither a double quote nor a
    token byte, and the parse goes on in the same state.  A token byte is
    appended to the parameter's name; the parameter's value stays empty. *)
Lemma expect_parameter_value_counterexample :
  loop 0 initial "a/b;c=" = Return afterEquals
  /\ (JS.charCode "=" =? DOUBLE_QUOTE) = false
  /\ isToken (JS.charCode "=") = false
  /\ step afterEquals "=" EmptyString = Return (afterEquals, O)
  /\ isToken (JS.charCode "x") = true
  /\ step afterEquals "x" EmptyString
     = Return ({| accepts := [];
                  state := CONTINUE_PARAMETER_VALUE;
                  currentAccept := currentAccept afterEquals;
                  currentParameterName := "cx" |}, O).
Proof. repeat split; vm_compute; reflexivity. Qed.

(** C2, amended.  In [EXPECT_PARAMETER_VALUE] a double quote leads to
    [CONTINUE_QUOTED_PARAMETER_VALUE]; a token byte leads to
    [CONTINUE_PARAMETER_VALUE]; an equals sign leaves the parser as it is;
    every other byte raises [UnexpectedCharacter].  No turn consumes more
    than its own byte. *)
Theorem expect_parameter_value_transitions (p : Parser) (c : ascii)
    (rest : string) :
  state p = EXPECT_PARAMETER_VALUE ->
  (JS.charCode c = DOUBLE_QUOTE ->
     step p c rest = Return (set_state CONTINUE_QUOTED_PARAMETER_VALUE p, O))
  /\ (isToken (JS.charCode c) = true ->
        exists p', step p c rest = Return (p', O)
                   /\ state p' = CONTINUE_PARAMETER_VALUE)
  /\ (JS.charCode c = EQUALS -> step p c rest = Return (p, O))
  /\ (JS.charCode c <> DOUBLE_QUOTE -> isToken (JS.charCode c) = false ->
      JS.charCode c <> EQUALS ->
        step p c rest = Throw (UnexpectedCharacter c)).
Proof.
  intros Hst. unfold step. rewrite Hst. repeat split.
  - intros ->. reflexivity.
  - intros Htok.
    destruct (JS.charCode c =? DOUBLE_QUOTE) eqn:Hq.
    + apply Z.eqb_eq in Hq. rewrite Hq in Htok. discriminate.
    + rewrite Htok. eexists. split; reflexivity.
  - intros ->. cbn. rewrite <- Hst. by rewrite set_state_same.
  - intros Hq Htok He.
    apply Z.eqb_neq in Hq, He. by rewrite Hq, Htok, He.
Qed.

Lemma expect_parameter_value_transitions_witness :
  step afterEquals "=" EmptyString = Return (afterEquals, O).
Proof.
  apply (expect_parameter_value_transitions afterEquals "=" EmptyString);
    reflexivity.
Defined.

(** ** The parameter [q] *)

(** C3.  The claim is that no range of a parsed header keeps the key [q]
    in its parameters, the value having moved to the field [q].  The code
    does not do that for an unquoted value: the first byte of the value is
    appended to [currentParameterName] in [EXPECT_PARAMETER_VALUE], the later
    bytes go to the parameter of that longer name, and [q] stays in
    [parameters] with the empty value, which [next] takes for absent. *)
Theorem unquoted_q_stays_in_parameters :
  parseAccepts "a/b;q=0.5" =
    Return [ {| type := "a"; subtype := "b";
                parameters := {[ "q" := EmptyString; "q0" := "undefined.5" ]};
                q := JS.one |} ]
  /\ parseAccepts ("a/b;q=" ++ quoted "0.5") =
    Return [ {| type := "a"; subtype := "b"; parameters := ∅;
                q := JS.Finite (1 # 2) |} ].
Proof. split; vm_compute; reflexivity. Qed.

(** ** Wildcards in the parsed ranges *)

Lemma wildcardShape_ext (a a' : Accept) :
  type a' = type a -> subtype a' = subtype a ->
  wildcardShape a -> wildcardShape a'.
Proof. unfold wildcardShape. by intros -> ->. Qed.

Lemma wildcardShape_asterisk : wildcardShape (newAccept "*").
Proof. split; [done|]. intros _. by right. Qed.

Lemma wildcardShape_fresh c :
  (JS.charCode c =? ASTERISK) = false -> wildcardShape (newAccept (JS.char c)).
Proof.
  intros Hc. split; [done|]. cbn. intros [= ->]. discriminate Hc.
Qed.

Lemma wildcardShape_set_type a c :
  wildcardShape a -> wildcardShape (set_type (type a ++ JS.char c) a).
Proof.
  intros [Hne _]. split; cbn.
  - apply append_not_empty.
  - intros H. by apply append_char_not_single in H.
Qed.

Lemma wildcardShape_set_subtype a c :
  isToken (JS.charCode c) = true ->
  wildcardShape a -> wildcardShape (set_subtype (JS.char c) a).
Proof.
  intros Htok [Hne _]. split; [done|]. cbn. intros _.
  destruct (decide (JS.charCode c = ASTERISK)) as [He|He].
  - left. by rewrite (charCode_inj c "*" He).
  - right. cbn. rewrite Htok. split; [done|]. congruence.
Qed.

Lemma wildcardShape_next p p' :
  ranges_ok wildcardShape p -> next p = Return p' ->
  ranges_ok wildcardShape p'.
Proof.
  intros [Hacc Hcur] (a & a' & Ha & -> & Ht & Hs & _)%next_Return.
  split; cbn; [|done].
  apply Forall_app. split; [done|]. constructor; [|done].
  eapply wildcardShape_ext; eauto.
Qed.

Lemma wildcardShape_step p c rest p' k :
  ranges_ok wildcardShape p -> step p c rest = Return (p', k) ->
  ranges_ok wildcardShape p'.
Proof.
  intros Hp H. pose proof Hp as [Hacc Hcur]. invert_step H.
  all: eauto using wildcardShape_next.
  all: split; [assumption|cbn; try assumption].
  all: intros ? [= <-].
  all: try match goal with
       | H : currentAccept (set_currentAccept _ _) = Some _ |- _ =>
           cbn in H; injection H as <-
       end.
  all: eauto using wildcardShape_set_type, wildcardShape_set_subtype,
         wildcardShape_asterisk, wildcardShape_fresh.
  all: eapply wildcardShape_ext; [| |eauto]; done.
Qed.

(** C4, as stated, fails: after the two bytes of "*/" the parser takes a
    token for the subtype. *)
Lemma wildcard_type_counterexample :
  parseAccepts "*/a" =
    Return [ {| type := "*"; subtype := "a"; parameters := ∅; q := JS.one |} ].
Proof. vm_compute. reflexivity. Qed.

(** C4, amended.  In every range the parser returns, if the type is "*"
    then the subtype is "*", or it is a run of token bytes (empty when the
    header ends right after the slash) that does not begin with an
    asterisk. *)
Theorem wildcard_type_subtype (h : string) (l : list Accept) (r : Accept) :
  parseAccepts h = Return l -> r ∈ l -> type r = "*" ->
  subtype r = "*"
  \/ (allCodes isToken (subtype r) = true
      /\ headCode (subtype r) <> Some ASTERISK).
Proof.
  intros Hp Hr Ht.
  pose proof (parseAccepts_ranges wildcardShape wildcardShape_step
                wildcardShape_next h l Hp) as Hall.
  rewrite Forall_forall in Hall. by apply Hall.
Qed.

Lemma wildcard_type_subtype_witness :
  subtype (range "*" "a" ∅) = "*"
  \/ (allCodes isToken (subtype (range "*" "a" ∅)) = true
      /\ headCode (subtype (range "*" "a" ∅)) <> Some ASTERISK).
Proof.
  apply (wildcard_type_subtype "*/a" [range "*" "a" ∅] (range "*" "a" ∅)).
  - vm_compute. reflexivity.
  - apply list_elem_of_singleton. reflexivity.
  - reflexivity.
Defined.

(** ** Wildcards in the server digests *)

Lemma split_nonempty (sep : ascii) (s : string) : JS.split sep s <> [].
Proof.
  induction s as [|c rest IH]; cbn; [done|].
  destruct (Ascii.eqb c sep); [done|]. by destruct (JS.split sep rest).
Qed.

Lemma hd_split_String (sep c : ascii) (rest : string) :
  hd EmptyString (JS.split sep (String c rest)) =
    if Ascii.eqb c sep then EmptyString
    else String c (hd EmptyString (JS.split sep rest)).
Proof.
  cbn. destruct (Ascii.eqb c sep); [done|].
  pose proof (split_nonempty sep rest). by destruct (JS.split sep rest).
Qed.

Lemma digest_type_spec (t : string) :
  digest_type (digest t) =
    hd EmptyString (JS.split "/" (hd EmptyString (JS.split ";" t))).
Proof. reflexivity. Qed.

Lemma digest_type_empty_iff (r : string) :
  hd EmptyString (JS.split "/" (hd EmptyString (JS.split ";" r))) = EmptyString
  <-> match r with
      | EmptyString | String "/" _ | String ";" _ => True
      | _ => False
      end.
Proof.
  destruct r as [|b r]; [done|]. rewrite hd_split_String.
  destruct (Ascii.eqb_spec b ";") as [->|Hs]; [done|].
  rewrite hd_split_String.
  destruct (Ascii.eqb_spec b "/") as [->|Hp]; [done|].
  split; [done|].
  destruct b as [[] [] [] [] [] [] [] []]; try done.
Qed.

Lemma digest_type_asterisk (t : string) :
  digest_type (digest t) = "*" <-> offersWildcard t = true.
Proof.
  rewrite digest_type_spec. destruct t as [|a r]; [done|].
  rewrite hd_split_String.
  destruct (Ascii.eqb_spec a ";") as [->|Hs]; [done|].
  rewrite hd_split_String.
  destruct (Ascii.eqb_spec a "/") as [->|Hp]; [done|].
  destruct (Ascii.eqb_spec a "*") as [->|Ha].
  - split.
    + intros [= H]. apply digest_type_empty_iff in H.
      destruct r as [|b r]; [done|].
      destruct b as [[] [] [] [] [] [] [] []]; done.
    + intros H. f_equal. apply digest_type_empty_iff.
      destruct r as [|b r]; [done|].
      destruct b as [[] [] [] [] [] [] [] []]; done.
  - split; [congruence|].
    destruct a as [[] [] [] [] [] [] [] []]; done.
Qed.

(** C5, as stated, fails: the digester splits what it is given, and the
    server list ["*/*"] yields a digest of type "*". *)
Lemma server_wildcard_counterexample :
  typeDigests (makeAcceptMatcher ["*/*"]) =
    [ {| digest_type := "*"; digest_subtype := Some "*";
         digest_parameters := ∅; digest_q := JS.one;
         originalType := "*/*" |} ].
Proof. vm_compute. reflexivity. Qed.

(** C5, amended.  The digests of a matcher are those of the strings it was
    built from, and the type of a digest is "*" exactly when its string is
    "*" or begins with "*/" or "*;": from a server list without such
    strings no digest of type "*" is produced. *)
Theorem server_wildcard_digests (mediaTypes : list string) (d : TypeDigest) :
  d ∈ typeDigests (makeAcceptMatcher mediaTypes) ->
  originalType d ∈ mediaTypes
  /\ (digest_type d = "*" <-> offersWildcard (originalType d) = true).
Proof.
  cbn. intros (t & -> & Ht)%list_elem_of_fmap.
  split; [done|]. apply digest_type_asterisk.
Qed.

Lemma server_wildcard_digests_witness :
  originalType (digest "text/html") ∈ servers
  /\ (digest_type (digest "text/html") = "*"
      <-> offersWildcard (originalType (digest "text/html")) = true).
Proof.
  apply (server_wildcard_digests servers (digest "text/html")).
  vm_compute. do 2 apply list_elem_of_further. apply list_elem_of_here.
Defined.

(** ** The matchers a program can hold *)

Lemma set_lru_same (m : Matcher) : set_lru (lru m) m = m.
Proof. by destruct m. Qed.

Lemma LRU_lookup_Some (key : string) (c : LRU.t) (v : JS.value) :
  LRU.lookup key c = Some v -> (key, v) ∈ LRU.entries c.
Proof.
  unfold LRU.lookup. destruct (find _ _) as [[k w]|] eqn:Hf; [|done].
  intros [= <-]. apply find_some in Hf as [Hin Hk]. cbn in Hk.
  apply String.eqb_eq in Hk as <-. by apply list_elem_of_In.
Qed.

Lemma LRU_remove_Forall (P : string * JS.value -> Prop) (key : string)
    (l : list (string * JS.value)) :
  Forall P l -> Forall P (LRU.remove key l).
Proof.
  rewrite !Forall_forall. intros H e He. apply H.
  apply list_elem_of_In in He. apply filter_In in He as [He _].
  by apply list_elem_of_In.
Qed.

Lemma LRU_get_Forall (P : string * JS.value -> Prop) (key : string)
    (c : LRU.t) :
  Forall P (LRU.entries c) -> Forall P (LRU.entries (LRU.get key c).2).
Proof.
  intros H. unfold LRU.get.
  destruct (LRU.lookup key c) as [v|] eqn:Hl; cbn; [|done].
  constructor; [|by apply LRU_remove_Forall].
  rewrite Forall_forall in H. by apply H, LRU_lookup_Some.
Qed.

Lemma LRU_set_Forall (P : string * JS.value -> Prop) (key : string)
    (v : JS.value) (c : LRU.t) :
  P (key, v) -> Forall P (LRU.entries c) ->
  Forall P (LRU.entries (LRU.set key v c)).
Proof.
  intros Hv H. cbn. apply Forall_take.
  constructor; [done|]. by apply LRU_remove_Forall.
Qed.

Lemma preferredAccept_ok (offered : list string) (m : Matcher)
    (header : option string) :
  matcher_ok offered m -> matcher_ok offered (preferredAccept m header).2.
Proof.
  intros (Hm & Hd & Hc). destruct header as [h|]; cbn; [|done].
  pose proof (LRU_get_Forall _ h _ Hc) as Hg.
  destruct (LRU.get h (lru m)) as [existing c]. cbn in Hg.
  assert (matcher_ok offered (set_lru c m)) as Hkeep by done.
  destruct existing; try done.
  destruct (parseAccepts h) as [specs|e] eqn:Hp; [|done].
  repeat split; [done..|]. cbn.
  apply LRU_set_Forall; [|done]. by exists specs.
Qed.

Lemma reachable_ok (offered : list string) (m : Matcher) :
  reachable offered m -> matcher_ok offered m.
Proof.
  induction 1 as [|m header _ IH].
  - repeat split. constructor.
  - by apply preferredAccept_ok.
Qed.

(** A header in the cache is one that parsed. *)
Lemma cached_header_parses (offered : list string) (m : Matcher)
    (h : string) (v : JS.value) :
  matcher_ok offered m -> LRU.lookup h (lru m) = Some v ->
  exists specs,
    parseAccepts h = Return specs /\ v = bestMediaType (typeDigests m) specs.
Proof.
  intros (_ & _ & Hc) Hl%LRU_lookup_Some.
  rewrite Forall_forall in Hc. apply (Hc _ Hl).
Qed.

(** ** The best match *)

Lemma Qltb_lt (x y : Q) : JS.Qltb x y = true <-> (x < y)%Q.
Proof. unfold JS.Qltb, Qlt. apply Z.ltb_lt. Qed.

Lemma Qltb_ge (x y : Q) : JS.Qltb x y = false <-> (y <= x)%Q.
Proof. unfold JS.Qltb, Qle. apply Z.ltb_ge. Qed.

Lemma lt_irrefl (n : JS.number) : JS.lt n n = false.
Proof. destruct n; cbn; try done. apply Qltb_ge, Qle_refl. Qed.

Lemma lt_le_trans (a b c : JS.number) :
  unitQ a -> unitQ b -> unitQ c ->
  JS.lt b a = false -> JS.lt b c = true ->
  JS.lt c a = false /\ JS.lt a c = true.
Proof.
  intros (x & -> & _) (y & -> & _) (z & -> & _). cbn.
  rewrite !Qltb_ge, !Qltb_lt. intros Hxy Hyz. split.
  - apply Qlt_le_weak. by eapply Qle_lt_trans.
  - by eapply Qle_lt_trans.
Qed.

Lemma unitQ_one : unitQ JS.one.
Proof. exists 1%Q. by repeat split. Qed.

Lemma unitQ_checked (n : JS.number) :
  JS.isNaN n = false -> JS.lt n JS.zero = false -> JS.gt n JS.one = false ->
  unitQ n.
Proof.
  destruct n as [| | |x]; cbn; try done.
  rewrite !Qltb_ge. intros _ H0 H1. by exists x.
Qed.

Lemma unitQ_next p p' :
  ranges_ok (fun a => unitQ (q a)) p -> next p = Return p' ->
  ranges_ok (fun a => unitQ (q a)) p'.
Proof.
  intros [Hacc Hcur] (a & a' & Ha & -> & _ & _ & Hq)%next_Return.
  split; cbn; [|done].
  apply Forall_app. split; [done|]. constructor; [|done].
  destruct Hq as [[_ ->]|(n & _ & Hn & H0 & H1 & ->)]; [by apply Hcur|].
  cbn. by apply unitQ_checked.
Qed.

Lemma unitQ_step p c rest p' k :
  ranges_ok (fun a => unitQ (q a)) p -> step p c rest = Return (p', k) ->
  ranges_ok (fun a => unitQ (q a)) p'.
Proof.
  intros Hp H. pose proof Hp as [Hacc Hcur]. invert_step H.
  all: eauto using unitQ_next.
  all: split; [assumption|cbn; try assumption].
  all: intros ? [= <-].
  all: try match goal with
       | H : currentAccept (set_currentAccept _ _) = Some _ |- _ =>
           cbn in H; injection H as <-
       end.
  all: cbn; eauto using unitQ_one.
Qed.

(** Every range the parser returns has a quality value from 0 to 1. *)
Lemma parseAccepts_unitQ (h : string) (l : list Accept) :
  parseAccepts h = Return l -> Forall (fun a => unitQ (q a)) l.
Proof. apply parseAccepts_ranges; [apply unitQ_step|apply unitQ_next]. Qed.

Lemma find_elem_of {A : Type} (f : A -> bool) (l : list A) (x : A) :
  List.find f l = Some x -> x ∈ l.
Proof. intros [H _]%find_some. by apply list_elem_of_In. Qed.

(** The loop over the digests: nothing matched and the pair is untouched,
    or the pair is that of the earliest digest among those whose first
    matching range has the greatest [q]. *)
Lemma consider_fold (specs : list Accept) (ds : list TypeDigest) :
  Forall (fun a => unitQ (q a)) specs ->
  Forall (fun d => originalType d <> EmptyString) ds ->
  (fold_left (consider specs) ds (JS.zero, JS.Null) = (JS.zero, JS.Null)
   /\ forall d, d ∈ ds -> List.find (specMatches d) specs = None)
  \/ (exists i d r,
        ds !! i = Some d
        /\ List.find (specMatches d) specs = Some r
        /\ fold_left (consider specs) ds (JS.zero, JS.Null)
           = (q r, JS.Str (originalType d))
        /\ forall j d' r',
             ds !! j = Some d' ->
             List.find (specMatches d') specs = Some r' ->
             JS.lt (q r) (q r') = false
             /\ ((j < i)%nat -> JS.lt (q r') (q r) = true)).
Proof.
  intros Hq. induction ds as [|d ds IH] using rev_ind; intros Hne.
  { left. split; [done|]. by intros d ?%elem_of_nil. }
  apply Forall_app in Hne as [Hne Hd]. apply Forall_singleton in Hd.
  rewrite fold_left_app. cbn.
  destruct (IH Hne) as [[-> Hnone]|(i & d0 & r0 & Hi & Hr0 & -> & Hbest)];
    unfold consider; cbn [fst snd].
  - destruct (find (specMatches d) specs) as [r|] eqn:Hr.
    + right. exists (length ds), d, r.
      split; [by rewrite lookup_app_r, Nat.sub_diag|].
      split; [done|]. split; [done|].
      intros j d' r' Hj Hr'.
      destruct (decide (j < length ds)%nat) as [Hlt|Hge].
      * rewrite lookup_app_l in Hj by done.
        apply list_elem_of_lookup_2, Hnone in Hj. congruence.
      * rewrite lookup_app_r in Hj by lia.
        apply list_lookup_singleton_Some in Hj as [_ <-].
        assert (r' = r) as -> by congruence.
        split; [apply lt_irrefl|lia].
    + left. split; [done|].
      intros d' [?|Hd']%elem_of_app; [auto|].
      by apply list_elem_of_singleton in Hd' as ->.
  - pose proof (lookup_lt_Some _ _ _ Hi) as Hlen.
    assert (unitQ (q r0)) as Hu0.
    { rewrite Forall_forall in Hq. by eapply Hq, find_elem_of. }
    destruct (find (specMatches d) specs) as [r|] eqn:Hr.
    + assert (unitQ (q r)) as Hu.
      { rewrite Forall_forall in Hq. by eapply Hq, find_elem_of. }
      assert (falsy (JS.Str (originalType d0)) = false) as ->.
      { apply list_elem_of_lookup_2 in Hi.
        rewrite Forall_forall in Hne. specialize (Hne _ Hi).
        by destruct (originalType d0). }
      cbn. unfold JS.gt. destruct (JS.lt (q r0) (q r)) eqn:Hcmp.
      * right. exists (length ds), d, r.
        split; [by rewrite lookup_app_r, Nat.sub_diag|].
        split; [done|]. split; [done|].
        intros j d' r' Hj Hr'.
        destruct (decide (j < length ds)%nat) as [Hlt|Hge].
        -- rewrite lookup_app_l in Hj by done.
           destruct (Hbest j d' r' Hj Hr') as [Hle _].
           assert (unitQ (q r')) as Hu'.
           { rewrite Forall_forall in Hq. by eapply Hq, find_elem_of. }
           destruct (lt_le_trans (q r') (q r0) (q r)); auto.
        -- rewrite lookup_app_r in Hj by lia.
           apply list_lookup_singleton_Some in Hj as [_ <-].
           assert (r' = r) as -> by congruence.
           split; [apply lt_irrefl|lia].
      * right. exists i, d0, r0.
        split; [by rewrite lookup_app_l|].
        split; [done|]. split; [done|].
        intros j d' r' Hj Hr'.
        destruct (decide (j < length ds)%nat) as [Hlt|Hge].
        -- rewrite lookup_app_l in Hj by done. exact (Hbest j d' r' Hj Hr').
        -- rewrite lookup_app_r in Hj by lia.
           apply list_lookup_singleton_Some in Hj as [? <-].
           assert (r' = r) as -> by congruence.
           split; [done|lia].
    + right. exists i, d0, r0.
      split; [by rewrite lookup_app_l|].
      split; [done|]. split; [done|].
      intros j d' r' Hj Hr'.
      destruct (decide (j < length ds)%nat) as [Hlt|Hge].
      * rewrite lookup_app_l in Hj by done. exact (Hbest j d' r' Hj Hr').
      * rewrite lookup_app_r in Hj by lia.
        apply list_lookup_singleton_Some in Hj as [? <-]. congruence.
Qed.

(** C6, as stated, fails when a registered type is the empty string: the
    loop tests [!bestMediaType], which is also true of the empty string, so
    a later digest replaces it whatever the [q].  Here both digests are
    matched by the range [*/*] with [q] 1, and the second one wins. *)
Lemma best_match_counterexample :
  parseAccepts "*/*" = Return [range "*" "*" ∅]
  /\ firstMatch [range "*" "*" ∅] EmptyString = Some (range "*" "*" ∅)
  /\ firstMatch [range "*" "*" ∅] "a/b" = Some (range "*" "*" ∅)
  /\ (preferredAccept (makeAcceptMatcher [EmptyString; "a/b"])
        (Some "*/*")).1 = Return (JS.Str "a/b").
Proof. repeat split; vm_compute; reflexivity. Qed.

(** C6, amended.  For a matcher none of whose registered types is the
    empty string, on a cache miss with a header that parses: if no
    registered type is matched by any range the answer is [null];
    otherwise the answer is the registered type whose first matching range
    (in the order the parser returned) has the greatest [q] among the
    registered types that are matched, the earliest registered one when
    several have that [q].  A [q] of 0 is a [q] like any other. *)
Theorem best_match (offered : list string) (m : Matcher) (h : string)
    (specs : list Accept) :
  reachable offered m ->
  Forall (fun t => t <> EmptyString) offered ->
  LRU.lookup h (lru m) = None ->
  parseAccepts h = Return specs ->
  ((preferredAccept m (Some h)).1 = Return JS.Null
   /\ forall t, t ∈ offered -> firstMatch specs t = None)
  \/ (exists i t r,
        offered !! i = Some t
        /\ firstMatch specs t = Some r
        /\ (preferredAccept m (Some h)).1 = Return (JS.Str t)
        /\ forall j t' r',
             offered !! j = Some t' ->
             firstMatch specs t' = Some r' ->
             JS.lt (q r) (q r') = false
             /\ ((j < i)%nat -> JS.lt (q r') (q r) = true)).
Proof.
  intros (_ & Hd & _)%reachable_ok Hne Hmiss Hp.
  assert ((preferredAccept m (Some h)).1
          = Return (bestMediaType (map digest offered) specs)) as ->.
  { cbn. unfold LRU.get. by rewrite Hmiss, Hp, Hd. }
  unfold bestMediaType, firstMatch.
  destruct (consider_fold specs (map digest offered))
    as [[-> Hnone]|(i & d & r & Hi & Hr & -> & Hbest)].
  - by eapply parseAccepts_unitQ.
  - apply Forall_fmap. by eapply Forall_impl.
  - left. split; [done|]. intros t Ht.
    apply Hnone, list_elem_of_fmap. eauto.
  - right. apply list_lookup_fmap_Some in Hi as (t & -> & Ht).
    exists i, t, r. split; [done|]. split; [done|]. split; [done|].
    intros j t' r' Hj Hr'. apply (Hbest j (digest t') r'); [|done].
    by apply (list_lookup_fmap_Some_2 digest).
Qed.

Lemma best_match_witness :
  exists t, (preferredAccept (makeAcceptMatcher servers)
               (Some "text/*;q=0,application/*;q=0")).1 = Return (JS.Str t).
Proof.
  destruct (best_match servers (makeAcceptMatcher servers)
              "text/*;q=0,application/*;q=0"
              [ range "text" "*" {[ "q" := EmptyString ]};
                range "application" "*" {[ "q" := EmptyString ]} ])
    as [[_ Hnone]|(i & t & r & _ & _ & Hres & _)].
  - apply reachable_new.
  - repeat constructor; discriminate.
  - reflexivity.
  - vm_compute. reflexivity.
  - specialize (Hnone "text/html"). discriminate Hnone.
    vm_compute. do 2 apply list_elem_of_further. apply list_elem_of_here.
  - by exists t.
Defined.

(** ** The precedence order *)

Section SortedFacts.
Context {A : Type} (f : A -> Z).

Let byScore (x y : A) : Prop := f y <= f x.

Lemma insertSorted_sorted (x : A) (l : list A) :
  StronglySorted byScore l ->
  StronglySorted byScore (insertSorted (fun a z => f z - f a) x l).
Proof.
  induction 1 as [|y l Hl IH Hy]; cbn.
  - repeat constructor.
  - destruct (0 <? f y - f x) eqn:Hc.
    + constructor; [done|].
      rewrite insertSorted_Permutation. constructor; [|done].
      unfold byScore. lia.
    + constructor; [by constructor|].
      constructor; [unfold byScore; lia|].
      eapply Forall_impl; [exact Hy|]. unfold byScore. intros z ?; cbn. lia.
Qed.

Lemma sort_sorted (l : list A) :
  StronglySorted byScore (sort (fun a z => f z - f a) l).
Proof.
  induction l as [|x l IH]; cbn; [constructor|].
  by apply insertSorted_sorted.
Qed.

Lemma sort_descending (l : list A) (i j : nat) (x y : A) :
  (i < j)%nat ->
  sort (fun a z => f z - f a) l !! i = Some x ->
  sort (fun a z => f z - f a) l !! j = Some y ->
  f y <= f x.
Proof.
  generalize (sort_sorted l). generalize (sort (fun a z => f z - f a) l).
  intros s Hs. revert i j.
  induction Hs as [|z s Hs IH Hz]; intros i j Hij Hi Hj; [done|].
  destruct j as [|j]; [lia|]. cbn in Hj.
  destruct i as [|i]; cbn in Hi.
  - injection Hi as ->. rewrite Forall_forall in Hz.
    apply Hz. by eapply list_elem_of_lookup_2.
  - eapply (IH i j); [lia|done..].
Qed.
End SortedFacts.

Lemma nonWildcards_score (a : Accept) :
  score a =
    (if String.eqb (type a) "*" then 0 else 1000)
    + (if String.eqb (subtype a) "*" then 0 else 1000000)
    + Z.of_nat (size (parameters a)).
Proof. reflexivity. Qed.

Lemma eqb_asterisk_iff (s t : string) :
  (s = "*" <-> t = "*") -> String.eqb s "*" = String.eqb t "*".
Proof.
  intros H. destruct (String.eqb_spec s "*"), (String.eqb_spec t "*"); tauto.
Qed.

Lemma moreSpecific_score (a b : Accept) :
  moreSpecific a b -> score b < score a.
Proof.
  intros [[Hn Hsz]|[[Ht Hs] Hsub]].
  - unfold nonWildcards in Hn. rewrite !nonWildcards_score.
    destruct (String.eqb (type a) "*"), (String.eqb (subtype a) "*"),
      (String.eqb (type b) "*"), (String.eqb (subtype b) "*"); cbn in Hn; lia.
  - apply map_subset_size in Hsub. rewrite !nonWildcards_score.
    rewrite (eqb_asterisk_iff _ _ Ht), (eqb_asterisk_iff _ _ Hs). lia.
Qed.

(** C7, as stated, fails.  The parser returns its ranges in the order of
    the score, but the score does not follow specificity.  A range with a
    thousand parameters scores as much as one with a component more:
    [wideHeader] is [a/*] followed by [*/*] with the parameters [p000] to
    [p999].  And of two ranges with one component each that is not "*", the
    one with the subtype outscores the one with the type and more
    parameters: [y/*;p=1] against [*/x]. *)
Lemma precedence_counterexample :
  length (rangesOf wideHeader) = 2%nat
  /\ nthRange wideHeader 0 = range "a" "*" ∅
  /\ type (nthRange wideHeader 1) = "*"
  /\ subtype (nthRange wideHeader 1) = "*"
  /\ size (parameters (nthRange wideHeader 1)) = 1000%nat
  /\ moreSpecific_stated (nthRange wideHeader 0) (nthRange wideHeader 1)
  /\ score (nthRange wideHeader 0) = 1000
  /\ score (nthRange wideHeader 1) = 1000
  /\ parseAccepts "y/*;p=1,*/x" =
       Return [ range "*" "x" ∅; range "y" "*" {[ "p" := EmptyString ]} ]
  /\ moreSpecific_stated
       (range "y" "*" {[ "p" := EmptyString ]}) (range "*" "x" ∅)
  /\ score (range "y" "*" {[ "p" := EmptyString ]}) = 1001
  /\ score (range "*" "x" ∅) = 1000000.
Proof.
  repeat apply conj; try (vm_compute; reflexivity).
  - left. vm_compute. lia.
  - right. split; [reflexivity|]. cbn.
    apply (insert_subset (M := gmap string)), lookup_empty.
Qed.

(** C7, amended.  The parser returns its ranges in non-increasing order of
    score, where the score of a range is 1000000 if its subtype is not "*",
    plus 1000 if its type is not "*", plus the number of its parameters.
    The score of [a] is strictly greater than the score of [b] when [a]
    has more components that are not "*" and [b] has fewer than 1000
    parameters, and when the two have "*" in the same components and the
    parameters of [a] are a strict superset of those of [b]. *)
Theorem precedence_order (h : string) (l : list Accept) (i j : nat)
    (x y a b : Accept) :
  parseAccepts h = Return l ->
  ((i < j)%nat -> l !! i = Some x -> l !! j = Some y -> score y <= score x)
  /\ score a =
       (if bool_decide (subtype a = "*") then 0 else 1000000)
       + (if bool_decide (type a = "*") then 0 else 1000)
       + Z.of_nat (size (parameters a))
  /\ (moreSpecific a b -> score b < score a).
Proof.
  intros (p & l0 & _ & _ & ->)%parseAccepts_Return.
  split; [apply sort_descending|].
  split; [|apply moreSpecific_score].
  rewrite nonWildcards_score.
  destruct (String.eqb_spec (type a) "*"), (String.eqb_spec (subtype a) "*");
    repeat case_bool_decide; try done; lia.
Qed.

Lemma precedence_order_witness :
  score (range "*" "*" ∅) <= score (range "a" "b" ∅)
  /\ score (range "*" "*" ∅) < score (range "a" "b" ∅).
Proof.
  destruct (precedence_order "*/*,a/b"
              [range "a" "b" ∅; range "*" "*" ∅] 0 1
              (range "a" "b" ∅) (range "*" "*" ∅)
              (range "a" "b" ∅) (range "*" "*" ∅)) as (H1 & _ & H2).
  - vm_compute. reflexivity.
  - split.
    + apply H1; [lia|reflexivity..].
    + apply H2. left. split; vm_compute; lia.
Defined.

(** ** Headers without quoted values *)

Lemma next_unquoted (p : Parser) (a : Accept) :
  currentAccept p = Some a -> truthy (parameters a !! "q") = false ->
  next p = Return {| accepts := accepts p ++ [a]; state := EXPECT_TYPE;
                     currentAccept := None;
                     currentParameterName := currentParameterName p |}.
Proof. unfold next. by intros -> ->. Qed.

Lemma started_push (p : Parser) (a : Accept) (n : string) :
  started {| accepts := accepts p ++ [a]; state := EXPECT_TYPE;
             currentAccept := None; currentParameterName := n |}.
Proof. left. cbn. by destruct (accepts p). Qed.

Lemma truthy_insert_empty (name : string) (m : gmap string string) :
  truthy (m !! "q") = false ->
  truthy (<[name := EmptyString]> m !! "q") = false.
Proof.
  intros H. destruct (decide (name = "q")) as [->|Hne].
  - by rewrite lookup_insert_eq.
  - by rewrite lookup_insert_ne.
Qed.

Lemma truthy_append (name s : string) (m : gmap string string) :
  name <> "q" -> truthy (m !! "q") = false ->
  truthy (appendParameter name s m !! "q") = false.
Proof. intros Hne H. unfold appendParameter. by rewrite lookup_insert_ne. Qed.

Lemma step_permitted (p : Parser) (c : ascii) (rest : string) :
  unquotedInv p ->
  grammarByte (JS.charCode c) = true ->
  permitted (state p) (String c rest) = true ->
  exists p' k,
    step p c rest = Return (p', k)
    /\ unquotedInv p'
    /\ permitted (state p') (dropBytes k rest) = true
    /\ (started p \/ isWhitespace (JS.charCode c) = false -> started p')
    /\ (k = O \/ isWhitespace (JS.charCode c) = false).
Proof.
  unfold unquotedInv, step. intros Hinv Hb Hperm.
  destruct (state p) eqn:Hst; cbn [permitted] in Hperm;
    try done;
    try match type of Hinv with
        | _ /\ _ => destruct Hinv as [(a & Ha & Hq) Hname]
        end.
  all: repeat match type of Hperm with
       | context [if ?b then _ else _] => destruct b eqn:?
       | context [match ?s with EmptyString => _ | String _ _ => _ end] =>
           destruct s eqn:?
       end; try discriminate Hperm.
  all: unfold withAccept; cbn -[permitted]; rewrite ?Ha.
  all: try rewrite (next_unquoted p a Ha Hq).
  all: rewrite ?headCode_test.
  all: cbn -[permitted].
  all: repeat match goal with
       | H : (?x =? ?y) = true |- context [?x =? ?y] => rewrite H
       | H : (?x =? ?y) = false |- context [?x =? ?y] => rewrite H
       end.
  all: cbn -[permitted].
  all: eexists _, _; (split; [reflexivity|]); cbn -[permitted]; rewrite ?Hst.
  all: split; [|split; [assumption|split;
                 [|first [left; reflexivity|right; reflexivity
                         |right; assumption]]]].
  all: try (intros Hs;
            first [ apply started_push
                  | right; cbn; rewrite ?Hst; discriminate
                  | destruct Hs as [Hs|Hs]; [exact Hs|discriminate Hs] ]).
  all: try done.
  all: try (split; [eexists; split; [first [reflexivity|eassumption]|]|]).
  all: cbn; eauto using truthy_insert_empty, truthy_append,
         append_not_empty, append_char_not_single.
  match goal with
  | H : (JS.charCode c =? DOUBLE_QUOTE) = true |- _ =>
      apply Z.eqb_eq in H; rewrite H in Hb; discriminate Hb
  end.
Qed.

(** On a header of grammar bytes in a permitted order, the loop runs to the
    end of the header, and a range is pushed or open once a byte that is
    not white space was read. *)
Lemma loop_permitted (n : nat) :
  forall (h : string) (p : Parser),
    (String.length h <= n)%nat ->
    unquotedInv p ->
    allCodes grammarByte h = true ->
    permitted (state p) h = true ->
    exists p',
      loop 0 p h = Return p'
      /\ unquotedInv p'
      /\ (started p \/ allCodes isWhitespace h = false -> started p').
Proof.
  induction n as [|n IH]; intros [|c rest] p Hlen Hinv Hb Hperm;
    cbn in Hlen; try lia.
  - exists p. cbn. intuition discriminate.
  - exists p. cbn. intuition discriminate.
  - cbn in Hb. apply andb_true_iff in Hb as [Hc Hrest].
    destruct (step_permitted p c rest Hinv Hc Hperm)
      as (p1 & k & Hstep & Hinv1 & Hperm1 & Hstart1 & Hk).
    cbn [loop]. rewrite Hstep. cbn. rewrite loop_skip.
    destruct (IH (dropBytes k rest) p1) as (p' & Hloop & Hinv' & Hstart');
      try done.
    + clear -Hlen. revert k. induction rest as [|d rest IHr]; intros [|k];
        cbn in *; try lia. specialize (IHr ltac:(lia) k). lia.
    + clear -Hrest. revert k. induction rest as [|d rest IHr]; intros [|k];
        cbn in *; try done. apply andb_true_iff in Hrest as [_ ?]. auto.
    + exists p'. split; [done|]. split; [done|].
      intros [Hs|Hws]; apply Hstart'; [left; apply Hstart1; by left|].
      cbn in Hws. apply andb_false_iff in Hws as [Hws|Hws].
      * left. apply Hstart1. by right.
      * destruct (allCodes isWhitespace (dropBytes k rest)) eqn:Hd;
          [|by right].
        left. apply Hstart1. right.
        destruct Hk as [->|Hk]; [|done]. cbn in Hd. congruence.
Qed.

(** C8, as stated, fails on a header of white space: it is not empty, it
    consists of optional white space in an order the state machine permits,
    and it parses to no range. *)
Lemma token_header_counterexample :
  allCodes grammarByte " " = true
  /\ permitted EXPECT_TYPE " " = true
  /\ parseAccepts " " = Return [].
Proof. repeat split; reflexivity. Qed.

(** C8, amended.  A header that consists of token bytes, slashes,
    semicolons, equals signs, commas and optional white space, in an order
    the state machine permits, and that has a byte that is not white space,
    is parsed without an error into at least one range. *)
Theorem token_header_parses (h : string) :
  allCodes grammarByte h = true ->
  permitted EXPECT_TYPE h = true ->
  allCodes isWhitespace h = false ->
  exists l, parseAccepts h = Return l /\ l <> [].
Proof.
  intros Hb Hperm Hws.
  destruct (loop_permitted (String.length h) h initial)
    as (p & Hloop & Hinv & Hstart); try done.
  specialize (Hstart (or_intror Hws)).
  unfold parseAccepts, finish. rewrite Hloop. cbn.
  destruct (decide (state p = EXPECT_TYPE)) as [Hst|Hst]; cbn.
  - eexists. split; [reflexivity|].
    intros Hnil%sort_nil_inv. destruct Hstart; done.
  - unfold unquotedInv in Hinv.
    assert (exists a, currentAccept p = Some a
                      /\ truthy (parameters a !! "q") = false)
      as (a & Ha & Hq).
    { destruct (state p); try done; apply Hinv. }
    rewrite (next_unquoted p a Ha Hq). cbn.
    eexists. split; [reflexivity|].
    intros Hnil%sort_nil_inv. by destruct (accepts p).
Qed.

Lemma token_header_parses_witness :
  exists l, parseAccepts "text/html;level=1, */*;q=0.8" = Return l /\ l <> [].
Proof.
  apply token_header_parses; reflexivity.
Defined.

(** ** Errors of the parser *)

(** C9.  When parsing the header raises an error, the call raises that
    error and the matcher, cache included, is what it was before; the same
    call again does the same. *)
Theorem parse_error_propagates (offered : list string) (m : Matcher)
    (h : string) (e : error) :
  reachable offered m ->
  parseAccepts h = Throw e ->
  preferredAccept m (Some h) = (Throw e, m)
  /\ preferredAccept (preferredAccept m (Some h)).2 (Some h) = (Throw e, m).
Proof.
  intros Hm%reachable_ok Hp.
  assert (preferredAccept m (Some h) = (Throw e, m)) as Hcall.
  { cbn. unfold LRU.get.
    destruct (LRU.lookup h (lru m)) as [v|] eqn:Hl.
    - destruct (cached_header_parses _ _ _ _ Hm Hl) as (specs & Hs & _).
      congruence.
    - by rewrite Hp, set_lru_same. }
  by rewrite Hcall.
Qed.

Lemma parse_error_propagates_witness :
  preferredAccept (makeAcceptMatcher servers) (Some "text html")
    = (Throw (UnexpectedCharacter " "), makeAcceptMatcher servers)
  /\ preferredAccept
       (preferredAccept (makeAcceptMatcher servers) (Some "text html")).2
       (Some "text html")
     = (Throw (UnexpectedCharacter " "), makeAcceptMatcher servers).
Proof.
  apply (parse_error_propagates servers).
  - apply reachable_new.
  - vm_compute. reflexivity.
Defined.

(** ** Headers of white space *)

Lemma loop_whitespace (h : string) (p : Parser) :
  state p = EXPECT_TYPE -> allCodes isWhitespace h = true ->
  loop 0 p h = Return p.
Proof.
  intros Hp. induction h as [|c rest IH]; cbn; [done|].
  intros [Hc Hr]%andb_true_iff.
  unfold step. rewrite Hp, Hc. cbn. by apply IH.
Qed.

Lemma parseAccepts_whitespace (h : string) :
  allCodes isWhitespace h = true -> parseAccepts h = Return [].
Proof.
  intros Hh. unfold parseAccepts. by rewrite loop_whitespace.
Qed.

Lemma bestMediaType_no_ranges (ds : list TypeDigest) :
  bestMediaType ds [] = JS.Null.
Proof.
  unfold bestMediaType.
  assert (forall best, fold_left (consider []) ds best = best) as ->; [|done].
  induction ds as [|d ds IH]; intros best; [done|]. apply IH.
Qed.

(** C10.  A header of white space only, the empty header included, parses
    to no range at all, and the matcher answers [null] to it, whatever it
    was asked before; the call raises no error.  To the absent header the
    same matcher answers the first type it was built with. *)
Theorem whitespace_header_selects_null (offered : list string) (m : Matcher)
    (h : string) :
  reachable offered m ->
  allCodes isWhitespace h = true ->
  parseAccepts h = Return []
  /\ (preferredAccept m (Some h)).1 = Return JS.Null
  /\ (preferredAccept m None).1 =
       Return (match offered with
               | t :: _ => JS.Str t
               | [] => JS.Undefined
               end).
Proof.
  intros Hm%reachable_ok Hh.
  pose proof (parseAccepts_whitespace h Hh) as Hp.
  split; [done|]. split.
  - cbn. unfold LRU.get.
    destruct (LRU.lookup h (lru m)) as [v|] eqn:Hl.
    + destruct (cached_header_parses _ _ _ _ Hm Hl) as (specs & Hs & ->).
      assert (specs = []) as -> by congruence.
      by rewrite bestMediaType_no_ranges.
    + by rewrite Hp, bestMediaType_no_ranges.
  - destruct Hm as (<- & _). reflexivity.
Qed.

Lemma whitespace_header_selects_null_witness :
  parseAccepts "  " = Return []
  /\ (preferredAccept (makeAcceptMatcher servers) (Some "  ")).1
     = Return JS.Null
  /\ (preferredAccept (makeAcceptMatcher servers) None).1
     = Return (JS.Str "application/json").
Proof.
  apply (whitespace_header_selects_null servers).
  - apply reachable_new.
  - reflexivity.
Defined.

(** * Further properties *)

(** ** The character classes *)

Ltac bool_to_Z :=
  repeat first
    [ rewrite orb_true_iff | rewrite andb_true_iff | rewrite negb_true_iff
    | rewrite Z.leb_le | rewrite Z.eqb_eq | rewrite Z.eqb_neq ].

(** X1.  [isToken] accepts exactly the codes its comment lists,
    [33|35-39|42|43|45-57|65-90|94-122|124|126], which are the codes from
    33 to 126 without [34|40|41|44|58-64|91-93|123|125]. *)
Theorem isToken_codes (charCode : Z) :
  (isToken charCode = true <->
     charCode = 33 \/ 35 <= charCode <= 39 \/ charCode = 42 \/ charCode = 43
     \/ 45 <= charCode <= 57 \/ 65 <= charCode <= 90
     \/ 94 <= charCode <= 122 \/ charCode = 124 \/ charCode = 126)
  /\ (isToken charCode = true <->
        33 <= charCode <= 126
        /\ charCode <> 34 /\ charCode <> 40 /\ charCode <> 41
        /\ charCode <> 44 /\ ~ 58 <= charCode <= 64
        /\ ~ 91 <= charCode <= 93 /\ charCode <> 123 /\ charCode <> 125).
Proof. unfold isToken. bool_to_Z. lia. Qed.

Lemma isToken_not_whitespace (charCode : Z) :
  isWhitespace charCode = true -> isToken charCode = false.
Proof.
  intros H. apply not_true_is_false. revert H.
  unfold isToken, isWhitespace, SPACE, WHITESPACE_START, WHITESPACE_END.
  bool_to_Z. lia.
Qed.

Lemma character_classes_aux (charCode : Z) :
  (isOWS charCode = true -> isWhitespace charCode = true)
  /\ (isWhitespace charCode = true -> isToken charCode = false).
Proof.
  split; [|apply isToken_not_whitespace].
  unfold isOWS, isWhitespace, SPACE, HORIZONTAL_TAB, WHITESPACE_START,
    WHITESPACE_END. bool_to_Z. lia.
Qed.

(** X2.  The classes the [switch] tests do not overlap, but for the slash
    and the asterisk: optional white space is white space; no white space
    is a token byte; the comma, the semicolon, the equals sign, the double
    quote and the backslash are neither; the slash and the asterisk are
    token bytes, which is why the parser tests for them first. *)
Theorem character_classes (charCode : Z) :
  (isOWS charCode = true -> isWhitespace charCode = true)
  /\ (isWhitespace charCode = true -> isToken charCode = false)
  /\ (charCode = COMMA \/ charCode = SEMICOLON \/ charCode = EQUALS
      \/ charCode = DOUBLE_QUOTE \/ charCode = BACKSLASH ->
      isToken charCode = false /\ isWhitespace charCode = false)
  /\ (charCode = SLASH \/ charCode = ASTERISK ->
      isToken charCode = true /\ isWhitespace charCode = false).
Proof.
  split; [apply character_classes_aux|].
  split; [apply isToken_not_whitespace|split].
  - intros [->|[->|[->|[->| ->]]]]; split; reflexivity.
  - intros [->| ->]; split; reflexivity.
Qed.

Lemma character_classes_witness :
  isToken 47 = true /\ isWhitespace 47 = false.
Proof.
  apply (character_classes 47). left. reflexivity.
Defined.

Lemma isToken_codes_witness : isToken 47 = true.
Proof.
  destruct (isToken_codes 47) as [[_ H] _]. apply H. lia.
Defined.

(** ** What the parser returns *)

(** An invariant of the parser that holds at the start, that the loop and
    [next] keep, and that says [I] of the ranges pushed, gives [I] of every
    range [parseAccepts] returns. *)
Section ParserInvariant.
Variable Inv : Parser -> Prop.
Variable I : Accept -> Prop.
Hypothesis Inv_initial : Inv initial.
Hypothesis Inv_step :
  forall p c rest p' k, Inv p -> step p c rest = Return (p', k) -> Inv p'.
Hypothesis Inv_next : forall p p', Inv p -> next p = Return p' -> Inv p'.
Hypothesis Inv_accepts : forall p, Inv p -> Forall I (accepts p).

Lemma parseAccepts_invariant (h : string) (l : list Accept) :
  parseAccepts h = Return l -> Forall I l.
Proof.
  intros (p & l0 & Hl & Hf & ->)%parseAccepts_Return.
  rewrite sort_Permutation.
  assert (Inv p) as Hp by (eapply (loop_preserves Inv Inv_step); eauto).
  unfold finish in Hf. destruct (decide _).
  - injection Hf as <-. by apply Inv_accepts.
  - destruct (next p) as [p1|] eqn:Hn; cbn in Hf; [|done].
    injection Hf as <-. eapply Inv_accepts, Inv_next; eauto.
Qed.
End ParserInvariant.

(** X3.  Every range the parser returns has a [q] that is a number from 0
    to 1: the default 1, or a value that passed the test of [next]. *)
Theorem parsed_q_within_unit (h : string) (l : list Accept) (r : Accept) :
  parseAccepts h = Return l -> r ∈ l ->
  exists x : Q, q r = JS.Finite x /\ (0 <= x)%Q /\ (x <= 1)%Q.
Proof.
  intros Hp Hr. apply parseAccepts_unitQ in Hp.
  rewrite Forall_forall in Hp. by apply Hp.
Qed.

Lemma parsed_q_within_unit_witness :
  exists x : Q,
    q (set_q (JS.Finite (1 # 2)) (range "a" "b" ∅)) = JS.Finite x
    /\ (0 <= x)%Q /\ (x <= 1)%Q.
Proof.
  apply (parsed_q_within_unit ("a/b;q=" ++ quoted "0.5")
           [set_q (JS.Finite (1 # 2)) (range "a" "b" ∅)]).
  - vm_compute. reflexivity.
  - apply list_elem_of_here.
Defined.

Lemma allCodes_app (P : Z -> bool) (s t : string) :
  allCodes P (s ++ t) = allCodes P s && allCodes P t.
Proof.
  induction s as [|c s IH]; [done|].
  rewrite append_String. cbn. by rewrite IH, andb_assoc.
Qed.

Lemma tokenString_char (c : ascii) :
  isToken (JS.charCode c) = true -> tokenString (JS.char c).
Proof. intros H. split; [done|]. cbn. by rewrite H. Qed.

Lemma tokenString_append (s : string) (c : ascii) :
  tokenString s -> isToken (JS.charCode c) = true ->
  tokenString (s ++ JS.char c).
Proof.
  intros [_ Hs] Hc. split; [apply append_not_empty|].
  rewrite allCodes_app, Hs. cbn. by rewrite Hc.
Qed.

Lemma rangeTokens_new (c : ascii) :
  isToken (JS.charCode c) = true -> rangeTokens (newAccept (JS.char c)).
Proof.
  intros H. split; [by apply tokenString_char|]. split; [done|].
  apply map_Forall_empty.
Qed.

Lemma rangeTokens_set_type (a : Accept) (c : ascii) :
  rangeTokens a -> isToken (JS.charCode c) = true ->
  rangeTokens (set_type (type a ++ JS.char c) a).
Proof.
  intros (Hty & Hsub & Hpar) Hc.
  split; [by apply tokenString_append|]. by split.
Qed.

Lemma rangeTokens_set_subtype (a : Accept) (s : string) :
  rangeTokens a -> allCodes isToken s = true -> rangeTokens (set_subtype s a).
Proof. intros (Hty & Hsub & Hpar) Hs. split; [done|]. by split. Qed.

Lemma rangeTokens_set_parameters (a : Accept) (m : gmap string string) :
  rangeTokens a -> map_Forall (fun name _ => tokenString name) m ->
  rangeTokens (set_parameters m a).
Proof. intros (Hty & Hsub & Hpar) Hm. split; [done|]. by split. Qed.

Lemma rangeTokens_insert (a : Accept) (name v : string) :
  rangeTokens a -> tokenString name ->
  rangeTokens (set_parameters (<[name := v]> (parameters a)) a).
Proof.
  intros Ha Hn. apply rangeTokens_set_parameters; [done|].
  apply map_Forall_insert_2; [done|]. apply Ha.
Qed.

Lemma tokensInv_next p p' :
  tokensInv p -> next p = Return p' -> tokensInv p'.
Proof.
  intros [[Hacc Hcur] _] (a & a' & Ha & -> & Ht & Hs & Hq)%next_Return.
  split; [|done]. split; cbn; [|done].
  apply Forall_app. split; [done|]. constructor; [|done].
  specialize (Hcur a Ha).
  destruct Hq as [[_ ->]|(n & _ & _ & _ & _ & ->)]; [done|].
  apply (rangeTokens_set_parameters a); [done|].
  apply map_Forall_delete, Hcur.
Qed.

Lemma tokensInv_step p c rest p' k :
  tokensInv p -> step p c rest = Return (p', k) -> tokensInv p'.
Proof.
  intros Hp H. pose proof Hp as [[Hacc Hcur] Hname]. invert_step H.
  all: eauto using tokensInv_next.
  all: try match goal with
       | H : currentAccept (set_currentAccept _ _) = Some _ |- _ =>
           cbn in H; injection H as <-
       end.
  all: try match goal with
       | H : currentAccept _ = Some ?x |- _ =>
           cbn in H; pose proof (Hcur x H)
       end.
  all: cbn in Hname.
  all: split; [split; [assumption|]|]; cbn;
       rewrite ?Heqs; eauto using tokenString_char, tokenString_append.
  all: intros ? [= <-]; unfold appendParameter.
  all: eauto using rangeTokens_new, rangeTokens_set_type,
         rangeTokens_set_subtype, rangeTokens_insert.
  apply rangeTokens_set_subtype; [done|]. cbn. by rewrite Heqb.
Qed.

(** X4.  In every range the parser returns, the type is a non-empty run of
    token bytes, the subtype is a run of token bytes, and every parameter
    name is a non-empty run of token bytes; only parameter values can hold
    other bytes. *)
Theorem parsed_ranges_are_tokens (h : string) (l : list Accept) (r : Accept) :
  parseAccepts h = Return l -> r ∈ l ->
  type r <> EmptyString
  /\ allCodes isToken (type r) = true
  /\ allCodes isToken (subtype r) = true
  /\ forall name v : string,
       parameters r !! name = Some v ->
       name <> EmptyString /\ allCodes isToken name = true.
Proof.
  intros Hp Hr.
  assert (Forall rangeTokens l) as Hall.
  { apply (parseAccepts_invariant tokensInv rangeTokens) with h;
      [|apply tokensInv_step|apply tokensInv_next| |done].
    - split; [split; [apply Forall_nil_2|by intros a [=]]|done].
    - intros p Hinv. apply Hinv. }
  rewrite Forall_forall in Hall.
  destruct (Hall r Hr) as ([Hne Hty] & Hsub & Hpar).
  split; [done|]. split; [done|]. split; [done|].
  intros name v Hv. apply (Hpar name v Hv).
Qed.

Lemma parsed_ranges_are_tokens_witness :
  type (range "a" "b" {[ "c" := "d e" ]}) <> EmptyString
  /\ allCodes isToken (type (range "a" "b" {[ "c" := "d e" ]})) = true
  /\ allCodes isToken (subtype (range "a" "b" {[ "c" := "d e" ]})) = true
  /\ forall name v : string,
       parameters (range "a" "b" {[ "c" := "d e" ]}) !! name = Some v ->
       name <> EmptyString /\ allCodes isToken name = true.
Proof.
  apply (parsed_ranges_are_tokens ("a/b;c=" ++ quoted "d e")
           [range "a" "b" {[ "c" := "d e" ]}]).
  - vm_compute. reflexivity.
  - apply list_elem_of_here.
Defined.

Lemma next_length (p p' : Parser) :
  next p = Return p' -> length (accepts p') = S (length (accepts p)).
Proof.
  intros (a & a' & _ & -> & _)%next_Return. cbn.
  rewrite length_app. cbn. lia.
Qed.

Lemma step_length (p : Parser) (c : ascii) (rest : string) (p' : Parser)
    (k : nat) :
  step p c rest = Return (p', k) ->
  (length (accepts p') <=
     length (accepts p) + if (JS.charCode c =? COMMA)%Z then 1 else 0)%nat.
Proof.
  intros H. invert_step H; cbn; try lia.
  all: match goal with
       | Hn : next _ = Return _ |- _ => apply next_length in Hn; rewrite Hn
       end.
  all: repeat match goal with
       | H : (_ =? COMMA) = true |- _ => rewrite H
       end; lia.
Qed.

Lemma loop_length (s : string) :
  forall skip p p',
    loop skip p s = Return p' ->
    (length (accepts p') <= length (accepts p) + countCode COMMA s)%nat.
Proof.
  induction s as [|c rest IH]; intros skip p p'; cbn.
  - intros [= <-]. lia.
  - destruct skip as [|k].
    + destruct (step p c rest) as [[p1 k]|e] eqn:Hs; cbn; [|done].
      intros Hl%IH. apply step_length in Hs.
      destruct (JS.charCode c =? COMMA); lia.
    + intros Hl%IH. destruct (JS.charCode c =? COMMA); lia.
Qed.

(** X5.  The parser returns at most one range more than the header has
    commas: a range is pushed at a comma and at the end of the header
    only. *)
Theorem parsed_ranges_bound (h : string) (l : list Accept) :
  parseAccepts h = Return l -> (length l <= S (countCode COMMA h))%nat.
Proof.
  intros (p & l0 & Hl & Hf & ->)%parseAccepts_Return.
  rewrite sort_Permutation. apply loop_length in Hl. cbn in Hl.
  unfold finish in Hf. destruct (decide _).
  - injection Hf as <-. lia.
  - destruct (next p) as [p1|] eqn:Hn; cbn in Hf; [|done].
    injection Hf as <-. apply next_length in Hn. lia.
Qed.

Lemma parsed_ranges_bound_witness :
  (length [range "*" "*" ∅; range "*" "*" ∅] <= S (countCode COMMA "*/*,*/*"))%nat.
Proof.
  apply (parsed_ranges_bound "*/*,*/*"). vm_compute. reflexivity.
Defined.

(** ** What the matcher answers *)

Lemma find_first {A : Type} (f : A -> bool) (l : list A) (x : A) :
  List.find f l = Some x <->
  exists i, l !! i = Some x /\ f x = true
            /\ forall j y, (j < i)%nat -> l !! j = Some y -> f y = false.
Proof.
  induction l as [|a l IH]; cbn.
  - split; [done|]. by intros (i & Hi & _).
  - destruct (f a) eqn:Hfa.
    + split.
      * intros [= <-]. exists O. repeat split; [done|]. intros j y Hj. lia.
      * intros (i & Hi & Hx & Hfirst). destruct i as [|i]; [by cbn in Hi|].
        specialize (Hfirst O a ltac:(lia) eq_refl). congruence.
    + rewrite IH. split.
      * intros (i & Hi & Hx & Hfirst). exists (S i). repeat split; [done..|].
        intros [|j] y Hj; cbn; [by intros [= <-]|].
        apply Hfirst. lia.
      * intros (i & Hi & Hx & Hfirst). destruct i as [|i].
        { cbn in Hi. congruence. }
        exists i. repeat split; [done..|].
        intros j y Hj Hy. apply (Hfirst (S j) y); [lia|done].
Qed.

Lemma find_none_iff {A : Type} (f : A -> bool) (l : list A) :
  List.find f l = None <-> forall x, x ∈ l -> f x = false.
Proof.
  split.
  - intros H x Hx. apply (find_none f l H). by apply list_elem_of_In.
  - intros H. destruct (List.find f l) as [x|] eqn:Hf; [|done].
    apply find_some in Hf as [Hin Hx].
    apply list_elem_of_In, H in Hin. congruence.
Qed.

(** X6.  The range [preferredAccept] finds for a digest has the highest
    precedence among the ranges of the header that match the digest: no
    matching range has a greater score. *)
Theorem first_match_has_highest_precedence (h : string)
    (specs : list Accept) (d : TypeDigest) (r r' : Accept) :
  parseAccepts h = Return specs ->
  List.find (specMatches d) specs = Some r ->
  r' ∈ specs -> specMatches d r' = true ->
  score r' <= score r.
Proof.
  intros (p & l0 & _ & _ & ->)%parseAccepts_Return.
  intros (i & Hi & _ & Hfirst)%find_first.
  intros (j & Hj)%list_elem_of_lookup_1 Hm.
  destruct (decide (j < i)%nat) as [Hlt|Hge].
  - rewrite (Hfirst j r' Hlt Hj) in Hm. discriminate.
  - destruct (decide (j = i)) as [->|Hne]; [|].
    + assert (r' = r) as -> by congruence. lia.
    + apply (sort_descending score l0 i j r r'); [lia|done..].
Qed.

Lemma first_match_has_highest_precedence_witness :
  score (range "*" "*" ∅) <= score (range "text" "*" ∅).
Proof.
  apply (first_match_has_highest_precedence "*/*,text/*"
           [range "text" "*" ∅; range "*" "*" ∅] (digest "text/html")).
  - vm_compute. reflexivity.
  - vm_compute. reflexivity.
  - apply list_elem_of_further, list_elem_of_here.
  - reflexivity.
Defined.

(** The loop over the digests ends with [null] or with the original string
    of one of the digests. *)
Lemma consider_value (specs : list Accept) (ds l : list TypeDigest) :
  forall best : JS.number * JS.value,
    Forall (fun d => d ∈ ds) l ->
    (best.2 = JS.Null \/ exists d, d ∈ ds /\ best.2 = JS.Str (originalType d)) ->
    (fold_left (consider specs) l best).2 = JS.Null
    \/ exists d, d ∈ ds
                 /\ (fold_left (consider specs) l best).2
                    = JS.Str (originalType d).
Proof.
  induction l as [|d l IH]; intros best Hl Hbest; [done|]. cbn.
  apply Forall_cons in Hl as [Hd Hl].
  apply IH; [done|]. unfold consider.
  destruct (find (specMatches d) specs); [|done].
  destruct (falsy best.2 || JS.gt _ _); [|done].
  right. by exists d.
Qed.

Lemma bestMediaType_value (ds : list TypeDigest) (specs : list Accept) :
  bestMediaType ds specs = JS.Null
  \/ exists d, d ∈ ds /\ bestMediaType ds specs = JS.Str (originalType d).
Proof. apply consider_value; [by apply Forall_forall|by left]. Qed.

(** What a call with a header answers, whatever is in the cache. *)
Lemma preferredAccept_answer (offered : list string) (m : Matcher)
    (h : string) :
  reachable offered m ->
  (preferredAccept m (Some h)).1 =
    match parseAccepts h with
    | Return specs => Return (bestMediaType (map digest offered) specs)
    | Throw e => Throw e
    end.
Proof.
  intros Hm%reachable_ok. pose proof Hm as (_ & Hd & _).
  cbn. unfold LRU.get.
  destruct (LRU.lookup h (lru m)) as [v|] eqn:Hl.
  - destruct (cached_header_parses _ _ _ _ Hm Hl) as (specs & -> & ->).
    rewrite Hd.
    destruct (bestMediaType_value (map digest offered) specs)
      as [->|(d & _ & ->)]; reflexivity.
  - destruct (parseAccepts h); by rewrite ?Hd.
Qed.

(** X7.  What a call with a header returns is [null] or one of the strings
    the matcher was built from, unchanged. *)
Theorem answer_is_registered (offered : list string) (m : Matcher)
    (h : string) (v : JS.value) :
  reachable offered m ->
  (preferredAccept m (Some h)).1 = Return v ->
  v = JS.Null \/ exists t, t ∈ offered /\ v = JS.Str t.
Proof.
  intros Hm. rewrite (preferredAccept_answer offered m h Hm).
  destruct (parseAccepts h) as [specs|e]; [|done]. intros [= <-].
  destruct (bestMediaType_value (map digest offered) specs)
    as [->|(d & Hd & ->)]; [by left|].
  right. apply list_elem_of_fmap in Hd as (t & -> & Ht). by exists t.
Qed.

Lemma answer_is_registered_witness :
  JS.Str "application/json" = JS.Null
  \/ exists t, t ∈ servers /\ JS.Str "application/json" = JS.Str t.
Proof.
  apply (answer_is_registered servers (makeAcceptMatcher servers) "*/*").
  - apply reachable_new.
  - vm_compute. reflexivity.
Defined.

(** X8.  The cache is transparent: what a call returns or raises does not
    depend on the calls made before; it is what the matcher just built
    returns or raises. *)
Theorem cache_is_transparent (offered : list string) (m : Matcher)
    (header : option string) :
  reachable offered m ->
  (preferredAccept m header).1
  = (preferredAccept (makeAcceptMatcher offered) header).1.
Proof.
  intros Hm. destruct header as [h|].
  - rewrite (preferredAccept_answer offered m h Hm).
    by rewrite (preferredAccept_answer offered _ h (reachable_new offered)).
  - apply reachable_ok in Hm as (Ht & _). cbn. by rewrite Ht.
Qed.

Lemma cache_is_transparent_witness :
  (preferredAccept (preferredAccept (makeAcceptMatcher servers)
                      (Some "*/*")).2 (Some "*/*")).1
  = (preferredAccept (makeAcceptMatcher servers) (Some "*/*")).1.
Proof.
  apply (cache_is_transparent servers). apply reachable_call, reachable_new.
Defined.

Lemma consider_matched (specs : list Accept) (l : list TypeDigest) :
  forall best : JS.number * JS.value,
    (exists d, d ∈ l /\ List.find (specMatches d) specs <> None)
    \/ (exists t, best.2 = JS.Str t) ->
    exists t, (fold_left (consider specs) l best).2 = JS.Str t.
Proof.
  induction l as [|d l IH]; intros best Hex.
  { destruct Hex as [(d & Hd & _)|Hb]; [by apply elem_of_nil in Hd|done]. }
  cbn. apply IH. unfold consider.
  destruct (find (specMatches d) specs) as [r|] eqn:Hr.
  - right. destruct (falsy best.2) eqn:Hf; cbn; [by eexists|].
    destruct (JS.gt _ _); [by eexists|].
    destruct best.2 as [| |t]; try done. by exists t.
  - destruct Hex as [(d' & Hd' & Hm)|Hb]; [|by right].
    apply elem_of_cons in Hd' as [->|Hd']; [done|].
    left. by exists d'.
Qed.

(** X9.  A range of type "*" is matched by every digest, so a header with
    such a range is never answered with [null] by a matcher with a server
    type: the answer is one of the registered strings. *)
Theorem wildcard_is_always_answered (offered : list string) (m : Matcher)
    (h : string) (specs : list Accept) (r : Accept) :
  reachable offered m ->
  offered <> [] ->
  parseAccepts h = Return specs ->
  r ∈ specs -> type r = "*" ->
  exists t, t ∈ offered /\ (preferredAccept m (Some h)).1 = Return (JS.Str t).
Proof.
  intros Hm Hne Hp Hr Ht.
  rewrite (preferredAccept_answer offered m h Hm), Hp.
  destruct offered as [|t0 offered]; [done|].
  destruct (consider_matched specs (map digest (t0 :: offered))
              (JS.zero, JS.Null)) as [t Hbest].
  { left. exists (digest t0). split; [apply list_elem_of_here|].
    intros Hnone. rewrite find_none_iff in Hnone.
    specialize (Hnone r Hr). unfold specMatches in Hnone.
    by rewrite Ht in Hnone. }
  fold (bestMediaType (map digest (t0 :: offered)) specs) in Hbest.
  destruct (bestMediaType_value (map digest (t0 :: offered)) specs)
    as [Hnull|(d & Hd & Hstr)]; [congruence|].
  apply list_elem_of_fmap in Hd as (t' & -> & Ht').
  exists t'. split; [done|]. by rewrite Hstr.
Qed.

Lemma wildcard_is_always_answered_witness :
  exists t, t ∈ servers
            /\ (preferredAccept (makeAcceptMatcher servers)
                  (Some "image/png,*/*")).1 = Return (JS.Str t).
Proof.
  apply (wildcard_is_always_answered servers (makeAcceptMatcher servers)
           "image/png,*/*" [range "imageng" "p" ∅; range "*" "*" ∅]
           (range "*" "*" ∅)).
  - apply reachable_new.
  - discriminate.
  - vm_compute. reflexivity.
  - apply list_elem_of_further, list_elem_of_here.
  - reflexivity.
Defined.

Lemma answer_when_q_ties (offered : list string) (specs : list Accept) :
  Forall (fun t => t <> EmptyString) offered ->
  Forall (fun a => unitQ (q a)) specs ->
  (forall r r', r ∈ specs -> r' ∈ specs -> q r = q r') ->
  bestMediaType (map digest offered) specs =
    match List.find (matched specs) offered with
    | Some t => JS.Str t
    | None => JS.Null
    end.
Proof.
  intros Hne Hq Heq. unfold bestMediaType.
  destruct (consider_fold specs (map digest offered))
    as [[-> Hnone]|(i & d & r & Hi & Hr & -> & Hbest)]; [done| | |].
  - apply Forall_fmap. by eapply Forall_impl.
  - assert (List.find (matched specs) offered = None) as ->; [|done].
    apply find_none_iff. intros t Ht. unfold matched, firstMatch.
    rewrite Hnone; [done|]. apply list_elem_of_fmap. eauto.
  - apply list_lookup_fmap_Some in Hi as (t & -> & Ht).
    assert (List.find (matched specs) offered = Some t) as ->; [|done].
    apply find_first. exists i. split; [done|].
    split; [unfold matched, firstMatch; by rewrite Hr|].
    intros j t' Hj Ht'. unfold matched, firstMatch.
    destruct (find (specMatches (digest t')) specs) as [r'|] eqn:Hr'; [|done].
    destruct (Hbest j (digest t') r') as [_ Hlt]; [|done|].
    { by apply (list_lookup_fmap_Some_2 digest). }
    specialize (Hlt Hj).
    rewrite (Heq r' r) in Hlt by (by eapply find_elem_of).
    by rewrite lt_irrefl in Hlt.
Qed.

(** X10.  When the ranges of the header all have the same [q] (so when no
    range gives one), the registration order alone decides: the answer is
    the first registered type that some range matches, [null] if there is
    none.  The registered types are not empty strings. *)
Theorem registration_order_decides (offered : list string) (m : Matcher)
    (h : string) (specs : list Accept) :
  reachable offered m ->
  Forall (fun t => t <> EmptyString) offered ->
  parseAccepts h = Return specs ->
  (forall r r', r ∈ specs -> r' ∈ specs -> q r = q r') ->
  (preferredAccept m (Some h)).1 =
    Return (match List.find (matched specs) offered with
            | Some t => JS.Str t
            | None => JS.Null
            end).
Proof.
  intros Hm Hne Hp Heq.
  rewrite (preferredAccept_answer offered m h Hm), Hp.
  f_equal. apply answer_when_q_ties; [done| |done].
  by eapply parseAccepts_unitQ.
Qed.

Lemma registration_order_decides_witness :
  (preferredAccept (makeAcceptMatcher servers) (Some "text/*,application/*")).1
  = Return (JS.Str "application/json").
Proof.
  apply (registration_order_decides servers (makeAcceptMatcher servers)
           "text/*,application/*"
           [range "text" "*" ∅; range "application" "*" ∅]).
  - apply reachable_new.
  - repeat constructor; discriminate.
  - vm_compute. reflexivity.
  - intros r r' Hr Hr'.
    repeat (apply elem_of_cons in Hr as [->|Hr]);
      repeat (apply elem_of_cons in Hr' as [->|Hr']);
      try reflexivity; by apply elem_of_nil in Hr || by apply elem_of_nil in Hr'.
Defined.

Lemma matchesParameters_iff (required : gmap string string)
    (given : gmap string (option string)) :
  matchesParameters required given = true <->
  forall name value,
    required !! name = Some value -> given !! name = Some (Some value).
Proof.
  unfold matchesParameters. rewrite forallb_forall. split.
  - intros H name value Hr.
    apply elem_of_map_to_list, list_elem_of_In, H in Hr.
    apply bool_decide_eq_true in Hr. cbn in Hr.
    destruct (given !! name) as [[v|]|]; cbn in Hr; congruence.
  - intros H [name value] Hin.
    apply list_elem_of_In, elem_of_map_to_list, H in Hin.
    apply bool_decide_eq_true. cbn. by rewrite Hin.
Qed.

(** X11.  [matchesParameters] holds exactly when every required parameter
    is given with the same value.  Parameters given beyond the required
    ones do not matter, a given parameter without a value satisfies no
    requirement, and no requirement at all is always met. *)
Theorem matchesParameters_contract (required : gmap string string)
    (given : gmap string (option string)) :
  (matchesParameters required given = true <->
     forall name value,
       required !! name = Some value -> given !! name = Some (Some value))
  /\ matchesParameters ∅ given = true
  /\ (forall required' given',
        required' ⊆ required -> given ⊆ given' ->
        matchesParameters required given = true ->
        matchesParameters required' given' = true).
Proof.
  split; [apply matchesParameters_iff|]. split.
  - apply matchesParameters_iff. intros name value. by rewrite lookup_empty.
  - intros required' given' Hr Hg. rewrite !matchesParameters_iff.
    intros H name value Hn.
    eapply lookup_weaken; [|exact Hg]. apply H.
    by eapply lookup_weaken.
Qed.

Lemma matchesParameters_contract_witness :
  matchesParameters {[ "charset" := "utf-8" ]}
    {[ "charset" := Some "utf-8"; "profile" := None ]} = true.
Proof.
  destruct (matchesParameters_contract {[ "charset" := "utf-8" ]}
              {[ "charset" := Some "utf-8" ]}) as (Hiff & _ & Hmono).
  apply (Hmono {[ "charset" := "utf-8" ]}).
  - reflexivity.
  - apply map_subseteq_spec. intros name value Hl.
    apply lookup_singleton_Some in Hl as [<- <-].
    apply lookup_insert_eq.
  - apply Hiff. intros name value Hl.
    apply lookup_singleton_Some in Hl as [<- <-].
    apply lookup_singleton_eq.
Defined.

(** ** Headers with quoted values *)

Lemma append_assoc (s t u : string) : (s ++ t) ++ u = s ++ (t ++ u).
Proof.
  induction s as [|c s IH]; [done|]. by rewrite !append_String, IH.
Qed.

Lemma append_empty_r (s : string) : s ++ EmptyString = s.
Proof. induction s as [|c s IH]; [done|]. by rewrite append_String, IH. Qed.

Lemma set_currentAccept_same (p : Parser) (a : Accept) :
  currentAccept p = Some a -> set_currentAccept (Some a) p = p.
Proof. destruct p. cbn. by intros ->. Qed.

Lemma set_type_same (a : Accept) : set_type (type a) a = a.
Proof. by destruct a. Qed.

Lemma set_parameters_same (a : Accept) : set_parameters (parameters a) a = a.
Proof. by destruct a. Qed.

(** The codes of the bytes written out in a statement. *)
Ltac literal_codes :=
  change (JS.charCode dquote) with 34;
  repeat match goal with
  | |- context [JS.charCode (Ascii ?a ?b ?c ?d ?e ?f ?g ?h)] =>
      let v := eval vm_compute in (JS.charCode (Ascii a b c d e f g h)) in
      change (JS.charCode (Ascii a b c d e f g h)) with v
  end.

Lemma loop_cons (p : Parser) (c : ascii) (rest : string) :
  loop 0 p (String c rest) = step p c rest ≫= fun r => loop r.2 r.1 rest.
Proof. reflexivity. Qed.

Lemma loop_skip_cons (k : nat) (p : Parser) (c : ascii) (rest : string) :
  loop (S k) p (String c rest) = loop k p rest.
Proof. reflexivity. Qed.

(** The bytes of a type after the first one. *)
Lemma loop_continue_type (s rest : string) :
  forall (p : Parser) (a : Accept),
    state p = CONTINUE_TYPE -> currentAccept p = Some a ->
    allCodes (fun n => isToken n && negb (n =? SLASH)) s = true ->
    loop 0 p (s ++ rest)
    = loop 0 (set_currentAccept (Some (set_type (type a ++ s) a)) p) rest.
Proof.
  induction s as [|c s IH]; intros p a Hst Ha Hs.
  - by rewrite append_empty_r, set_type_same, set_currentAccept_same.
  - cbn in Hs. apply andb_true_iff in Hs as [Hc Hs].
    apply andb_true_iff in Hc as [Htok Hsl]. apply negb_true_iff in Hsl.
    rewrite append_String. rewrite loop_cons. unfold step at 1.
    rewrite Hst, Hsl, Htok. unfold withAccept. rewrite Ha. cbn.
    rewrite (IH _ (set_type (type a ++ JS.char c) a)); [|done..].
    cbn. unfold JS.char. by rewrite append_assoc.
Qed.

(** The bytes of a parameter name after the first one. *)
Lemma loop_continue_name (s rest : string) :
  forall p : Parser,
    state p = CONTINUE_PARAMETER_NAME ->
    allCodes isToken s = true ->
    loop 0 p (s ++ rest)
    = loop 0 (set_currentParameterName (currentParameterName p ++ s) p) rest.
Proof.
  induction s as [|c s IH]; intros p Hst Hs.
  - rewrite append_empty_r. by destruct p.
  - cbn in Hs. apply andb_true_iff in Hs as [Htok Hs].
    rewrite append_String. rewrite loop_cons. unfold step at 1.
    rewrite Hst, Htok. cbn.
    rewrite IH; [|done..]. cbn. unfold JS.char. by rewrite append_assoc.
Qed.

(** The bytes of a quoted value, escapes resolved, up to the closing
    quote. *)
Lemma loop_quoted_value (v rest : string) :
  forall (p : Parser) (a : Accept) (old : string),
    state p = CONTINUE_QUOTED_PARAMETER_VALUE ->
    currentAccept p = Some a ->
    parameters a !! currentParameterName p = Some old ->
    loop 0 p (escape v ++ rest)
    = loop 0 (set_currentAccept
                (Some (set_parameters
                         (<[currentParameterName p := old ++ v]>
                            (parameters a)) a)) p) rest.
Proof.
  induction v as [|c v IH]; intros p a old Hst Ha Hold.
  - cbn. rewrite append_empty_r, insert_id by done.
    by rewrite set_parameters_same, set_currentAccept_same.
  - pose (a1 := set_parameters
                  (appendParameter (currentParameterName p) (JS.char c)
                     (parameters a)) a).
    pose (p1 := set_currentAccept (Some a1) p).
    assert (loop 0 p (escape (String c v) ++ rest)
            = loop 0 p1 (escape v ++ rest)) as ->.
    { cbn [escape].
      destruct ((JS.charCode c =? DOUBLE_QUOTE)
                || (JS.charCode c =? BACKSLASH)) eqn:Hc.
      - rewrite !append_String, loop_cons. unfold step at 1.
        rewrite Hst. unfold withAccept. rewrite Ha.
        change (JS.charCode "\" =? DOUBLE_QUOTE) with false.
        change (JS.charCode "\" =? BACKSLASH) with true.
        reflexivity.
      - apply orb_false_iff in Hc as [Hq Hb].
        rewrite append_String, loop_cons. unfold step at 1.
        rewrite Hst, Hq, Hb. unfold withAccept. rewrite Ha. reflexivity. }
    rewrite (IH p1 a1 (old ++ JS.char c)); [|done|reflexivity|].
    + subst p1 a1. cbn. unfold appendParameter. rewrite Hold. cbn.
      rewrite insert_insert_eq. unfold JS.char. by rewrite append_assoc.
    + subst p1 a1. cbn. unfold appendParameter.
      by rewrite Hold, lookup_insert_eq.
Qed.

Lemma isOWS_not_token (n : Z) : isToken n = true -> isOWS n = false.
Proof.
  intros Ht. destruct (isOWS n) eqn:Ho; [|done].
  destruct (character_classes_aux n) as (H1 & H2). apply H1, H2 in Ho.
  congruence.
Qed.

Lemma step_semicolon (p : Parser) (rest : string) :
  state p = CONTINUE_SUBTYPE \/ state p = EXPECT_COMMA_OR_SEMICOLON ->
  step p ";" rest = Return (set_state EXPECT_PARAMETER_NAME p, O).
Proof. unfold step. by intros [-> | ->]. Qed.

(** The name and the quoted value of a parameter, read where a name is
    expected, up to the end of the value: the name is assigned the value,
    escapes resolved. *)
Lemma loop_name_value (k v rest : string) (p : Parser) (a : Accept) :
  state p = EXPECT_PARAMETER_NAME ->
  currentAccept p = Some a ->
  tokenString k ->
  loop 0 p (k ++ String "=" (String dquote (escape v)) ++ rest)
  = loop 0 {| accepts := accepts p;
              state := CONTINUE_QUOTED_PARAMETER_VALUE;
              currentAccept :=
                Some (set_parameters (<[k := v]> (parameters a)) a);
              currentParameterName := k |} rest.
Proof.
  intros Hst Ha [Hne Hk]. destruct k as [|c0 k]; [done|].
  cbn in Hk. apply andb_true_iff in Hk as [Hc0 Hk].
  rewrite !append_String.
  (* the name *)
  rewrite loop_cons. unfold step at 1. rewrite Hst.
  rewrite (isOWS_not_token _ Hc0), Hc0. cbn -[loop].
  rewrite loop_continue_name; [|done..].
  cbn -[loop].
  (* the equals sign and the opening quote *)
  rewrite ?append_String, loop_cons. unfold step at 1. cbn -[loop].
  unfold withAccept. cbn -[loop]. rewrite Ha. literal_codes. cbn -[loop].
  rewrite loop_cons. unfold step at 1. literal_codes. cbn -[loop].
  (* the value *)
  erewrite loop_quoted_value;
    [|reflexivity|reflexivity|cbn; apply lookup_insert_eq].
  cbn -[loop]. rewrite insert_insert_eq. reflexivity.
Qed.

(** A parameter with a quoted value, read after a subtype or after another
    quoted value, up to the end of the value. *)
Lemma loop_parameter_open (k v rest : string) (p : Parser) (a : Accept) :
  state p = CONTINUE_SUBTYPE \/ state p = EXPECT_COMMA_OR_SEMICOLON ->
  currentAccept p = Some a ->
  tokenString k ->
  loop 0 p (openParameterText (k, v) ++ rest)
  = loop 0 {| accepts := accepts p;
              state := CONTINUE_QUOTED_PARAMETER_VALUE;
              currentAccept :=
                Some (set_parameters (<[k := v]> (parameters a)) a);
              currentParameterName := k |} rest.
Proof.
  intros Hst Ha Hk.
  assert (openParameterText (k, v) ++ rest
          = String ";" (k ++ String "=" (String dquote (escape v)) ++ rest))
    as ->.
  { unfold openParameterText. cbn [fst snd]. by rewrite !append_assoc. }
  rewrite loop_cons, step_semicolon by done. cbn -[loop].
  by rewrite (loop_name_value k v rest _ a).
Qed.

Lemma loop_parameter (k v rest : string) (p : Parser) (a : Accept) :
  state p = CONTINUE_SUBTYPE \/ state p = EXPECT_COMMA_OR_SEMICOLON ->
  currentAccept p = Some a ->
  tokenString k ->
  loop 0 p (parameterText (k, v) ++ rest)
  = loop 0 {| accepts := accepts p;
              state := EXPECT_COMMA_OR_SEMICOLON;
              currentAccept :=
                Some (set_parameters (<[k := v]> (parameters a)) a);
              currentParameterName := k |} rest.
Proof.
  intros Hst Ha Hk. unfold parameterText.
  rewrite append_assoc, (loop_parameter_open k v _ p a) by done.
  rewrite append_String, loop_cons. unfold step at 1.
  literal_codes. reflexivity.
Qed.

Lemma loop_parameters (params : list (string * string)) (rest : string) :
  forall (p : Parser) (a : Accept),
    reading p (accepts p) a ->
    Forall (fun kv => tokenString kv.1) params ->
    exists p',
      loop 0 p (parametersText params ++ rest) = loop 0 p' rest
      /\ reading p' (accepts p)
           (set_parameters (assign params (parameters a)) a).
Proof.
  induction params as [|[k v] params IH]; intros p a (Hst & _ & Ha) Hk.
  - exists p. split; [done|]. cbn. by rewrite set_parameters_same.
  - apply Forall_cons in Hk as [Hk Hks]. cbn [parametersText fold_right].
    rewrite append_assoc, (loop_parameter k v _ p a) by done.
    fold (parametersText params).
    destruct (IH {| accepts := accepts p;
                    state := EXPECT_COMMA_OR_SEMICOLON;
                    currentAccept :=
                      Some (set_parameters (<[k := v]> (parameters a)) a);
                    currentParameterName := k |}
                (set_parameters (<[k := v]> (parameters a)) a))
      as (p' & -> & Hp'); [|exact Hks|].
    { split; [by right|]. by split. }
    exists p'. split; [done|]. exact Hp'.
Qed.

(** A type and the subtype "*", read where a type is expected. *)
Lemma loop_type_wildcard (t rest : string) (p0 : Parser) :
  state p0 = EXPECT_TYPE ->
  typeName t ->
  loop 0 p0 (t ++ "/*" ++ rest)
  = loop 0 {| accepts := accepts p0;
              state := CONTINUE_SUBTYPE;
              currentAccept := Some (range t "*" ∅);
              currentParameterName := currentParameterName p0 |} rest.
Proof.
  intros Hst0 (Hne & Ht & Hstar). destruct t as [|c0 t]; [done|].
  cbn in Ht. apply andb_true_iff in Ht as [Hc0 Ht].
  apply andb_true_iff in Hc0 as [Hc0 _].
  assert ((JS.charCode c0 =? ASTERISK) = false) as Hc0s.
  { apply Z.eqb_neq. cbn in Hstar. congruence. }
  rewrite !append_String, loop_cons. unfold step at 1.
  rewrite Hst0.
  destruct (character_classes_aux (JS.charCode c0)) as [_ Hws].
  destruct (isWhitespace (JS.charCode c0)) eqn:Hw;
    [specialize (Hws eq_refl); congruence|].
  rewrite Hc0s, Hc0. cbn -[loop].
  rewrite (loop_continue_type t _ _ (newAccept (JS.char c0))); [|done..].
  cbn -[loop]. rewrite ?append_String.
  rewrite loop_cons. unfold step at 1. literal_codes. cbn -[loop].
  rewrite loop_cons. unfold step at 1. literal_codes. cbn -[loop].
  reflexivity.
Qed.

(** A range [t/*] with quoted parameters, read where a type is expected. *)
Lemma loop_range (t : string) (params : list (string * string))
    (rest : string) (p0 : Parser) :
  state p0 = EXPECT_TYPE ->
  typeName t ->
  Forall (fun kv => tokenString kv.1) params ->
  exists p,
    loop 0 p0 (rangeText t params ++ rest) = loop 0 p rest
    /\ reading p (accepts p0) (range t "*" (assign params ∅)).
Proof.
  intros Hst0 Ht Hk. unfold rangeText.
  rewrite !append_assoc, loop_type_wildcard by done.
  match goal with
  | |- exists p, loop 0 ?p1 _ = _ /\ _ =>
      destruct (loop_parameters params rest p1 (range t "*" ∅))
        as (p & -> & Hp); [|exact Hk|exists p; split; [done|exact Hp]]
  end.
  split; [by left|]. by split.
Qed.

Lemma loop_leading (w rest : string) (p : Parser) :
  state p = EXPECT_TYPE -> allCodes isWhitespace w = true ->
  loop 0 p (w ++ rest) = loop 0 p rest.
Proof.
  intros Hp. induction w as [|c w IH]; [done|]. cbn [allCodes].
  intros [Hc Hw]%andb_true_iff.
  rewrite append_String, loop_cons. unfold step. rewrite Hp, Hc. cbn -[loop].
  by apply IH.
Qed.

Lemma assign_lookup_None {V : Type} (params : list (string * V)) (name : string) :
  forall m : gmap string V,
    Forall (fun kv => kv.1 <> name) params ->
    m !! name = None -> assign params m !! name = None.
Proof.
  induction params as [|[k v] params IH]; intros m Hne Hm; [done|].
  apply Forall_cons in Hne as [Hk Hne]. cbn.
  apply IH; [done|]. by rewrite lookup_insert_ne.
Qed.

Lemma wellFormed_names (e : Element) :
  wellFormed e -> Forall (fun kv => tokenString kv.1) (quotedParameters e).
Proof. intros (_ & _ & H). eapply Forall_impl; [exact H|]. by intros kv []. Qed.

(** An element read where a type is expected. *)
Lemma loop_element (e : Element) (rest : string) (p0 : Parser) :
  state p0 = EXPECT_TYPE -> wellFormed e ->
  exists p,
    loop 0 p0 (elementText e ++ rest) = loop 0 p rest
    /\ reading p (accepts p0) (elementRange e).
Proof.
  intros Hst He. pose proof (wellFormed_names e He) as Hn.
  destruct He as (Hw & Ht & _).
  unfold elementText. rewrite append_assoc, loop_leading by done.
  by apply loop_range.
Qed.

(** The end of an element: [next] pushes its range as it is. *)
Lemma next_element (e : Element) (p : Parser) :
  wellFormed e -> reading p (accepts p) (elementRange e) ->
  next p = Return {| accepts := accepts p ++ [elementRange e];
                     state := EXPECT_TYPE; currentAccept := None;
                     currentParameterName := currentParameterName p |}.
Proof.
  intros (_ & _ & Hq) (_ & _ & Ha). apply next_unquoted; [done|].
  cbn. rewrite assign_lookup_None; [done| |done].
  eapply Forall_impl; [exact Hq|]. by intros kv [].
Qed.

Lemma loop_header (es : list Element) :
  forall p0 : Parser,
    state p0 = EXPECT_TYPE ->
    Forall wellFormed es ->
    exists p,
      loop 0 p0 (headerText es) = Return p
      /\ finish p = Return (accepts p0 ++ map elementRange es)%list.
Proof.
  induction es as [|e es IH]; intros p0 Hst Hes.
  - exists p0. split; [done|]. unfold finish.
    rewrite decide_True by done. by rewrite app_nil_r.
  - apply Forall_cons in Hes as [He Hes].
    destruct es as [|e' es].
    + cbn [headerText]. rewrite <- (append_empty_r (elementText e)).
      destruct (loop_element e EmptyString p0 Hst He) as (p & -> & Hp).
      exists p. split; [done|]. unfold finish.
      destruct Hp as (Hs & Hacc & Ha).
      rewrite decide_False by (destruct Hs as [-> | ->]; done).
      rewrite (next_element e p He); [by rewrite Hacc|].
      by rewrite Hacc.
    + change (headerText (e :: e' :: es))
        with (elementText e ++ String "," (headerText (e' :: es))).
      destruct (loop_element e (String "," (headerText (e' :: es))) p0 Hst He)
        as (p & -> & Hp).
      pose proof Hp as (Hs & Hacc & Ha).
      rewrite loop_cons.
      assert (step p "," (headerText (e' :: es))
              = p1 ← next p; Return (p1, O)) as ->.
      { unfold step. by destruct Hs as [-> | ->]. }
      rewrite (next_element e p He) by (by rewrite Hacc).
      cbn -[loop headerText].
      edestruct IH as (p' & -> & Hf); [|exact Hes|].
      { reflexivity. }
      exists p'. split; [done|]. rewrite Hf. cbn.
      by rewrite Hacc, <- app_assoc.
Qed.

(** X12.  A header written as elements [type/*] with quoted parameters,
    white space before the elements and commas between them, is read back
    as written: one range for each element, with the type, the subtype
    "*", the parameters with the escapes of their values resolved (a later
    value for a name replacing an earlier one) and the default [q]; the
    ranges come in the order of the precedence sort. *)
Theorem header_round_trip (es : list Element) :
  Forall wellFormed es ->
  parseAccepts (headerText es)
  = Return (sort (fun a z => score z - score a) (map elementRange es)).
Proof.
  intros Hes. unfold parseAccepts.
  destruct (loop_header es initial eq_refl Hes) as (p & -> & Hf).
  cbn. by rewrite Hf.
Qed.

Lemma header_round_trip_witness :
  parseAccepts (headerText
    [ mkElement EmptyString "text" [("title", quoted "a\b")];
      mkElement " " "image" [] ])
  = Return [ range "text" "*" {[ "title" := quoted "a\b" ]};
             range "image" "*" ∅ ].
Proof.
  apply (header_round_trip
    [ mkElement EmptyString "text" [("title", quoted "a\b")];
      mkElement " " "image" [] ]).
  repeat constructor; cbn; try done.
Defined.

(** X13.  A header may end inside a quoted value: the value read so far is
    the value of the parameter, as if the quote were closed.  A header
    that ends with a backslash inside a quoted value raises "Unexpected
    terminating backslash". *)
Theorem unfinished_quoted_value (e : Element) (k v : string) :
  wellFormed e -> tokenString k ->
  (k <> "q" ->
   parseAccepts (elementText e ++ openParameterText (k, v))
   = Return [ range (typeOf e) "*"
                (<[k := v]> (assign (quotedParameters e) ∅)) ])
  /\ parseAccepts (elementText e ++ openParameterText (k, v) ++ "\")
     = Throw UnexpectedTerminatingBackslash.
Proof.
  intros He Hk. pose proof He as (_ & _ & Hq).
  split; [intros Hkq|].
  - destruct (loop_element e (openParameterText (k, v)) initial eq_refl He)
      as (p & Hl & Hs & Hacc & Ha).
    unfold parseAccepts. rewrite Hl.
    rewrite <- (append_empty_r (openParameterText (k, v))).
    rewrite (loop_parameter_open k v _ p (elementRange e)) by done.
    cbn -[next finish]. unfold finish. cbn -[next].
    erewrite next_unquoted; [|reflexivity|].
    + cbn. by rewrite Hacc.
    + cbn. rewrite lookup_insert_ne by done.
      rewrite assign_lookup_None; [done| |done].
      eapply Forall_impl; [exact Hq|]. by intros kv [].
  - destruct (loop_element e (openParameterText (k, v) ++ "\") initial
                eq_refl He) as (p & Hl & Hs & Hacc & Ha).
    unfold parseAccepts. rewrite Hl.
    rewrite (loop_parameter_open k v _ p (elementRange e)) by done.
    reflexivity.
Qed.

Lemma unfinished_quoted_value_witness :
  parseAccepts ("text/*;title=" ++ String dquote "a b")
  = Return [ range "text" "*" {[ "title" := "a b" ]} ].
Proof.
  destruct (unfinished_quoted_value (mkElement EmptyString "text" [])
              "title" "a b") as [H _].
  - repeat split; done.
  - by split.
  - apply H. discriminate.
Defined.

Lemma find_ext {A : Type} (f g : A -> bool) (l : list A) :
  (forall x, f x = g x) -> List.find f l = List.find g l.
Proof.
  intros H. induction l as [|x l IH]; [done|]. cbn. by rewrite H, IH.
Qed.

Lemma typeName_not_asterisk (t : string) : typeName t -> String.eqb t "*" = false.
Proof.
  intros (_ & _ & H). apply String.eqb_neq. intros ->. by apply H.
Qed.

(** X14.  To the header [t/*], a type name followed by the subtype "*",
    the matcher answers the first registered type whose text before the
    first slash and the first semicolon is [t], and [null] when there is
    none.  The registered types are not empty strings. *)
Theorem type_wildcard_selects (offered : list string) (m : Matcher)
    (t : string) :
  reachable offered m ->
  Forall (fun s => s <> EmptyString) offered ->
  typeName t ->
  (preferredAccept m (Some (t ++ "/*"))).1 =
    Return (match List.find
                    (fun s => String.eqb t (digest_type (digest s))) offered
            with
            | Some s => JS.Str s
            | None => JS.Null
            end).
Proof.
  intros Hm Hne Ht.
  assert (parseAccepts (t ++ "/*") = Return [range t "*" ∅]) as Hp.
  { apply (header_round_trip [mkElement EmptyString t []]).
    constructor; [|constructor].
    split; [done|]. split; [exact Ht|constructor]. }
  rewrite (registration_order_decides offered m _ [range t "*" ∅] Hm Hne Hp).
  - f_equal. erewrite find_ext; [reflexivity|].
    intros s. unfold matched, firstMatch. cbn. unfold specMatches. cbn.
    rewrite (typeName_not_asterisk t Ht). cbn.
    by destruct (String.eqb _ _).
  - intros r r' Hr Hr'.
    apply list_elem_of_singleton in Hr as ->.
    by apply list_elem_of_singleton in Hr' as ->.
Qed.

Lemma type_wildcard_selects_witness :
  (preferredAccept (makeAcceptMatcher servers) (Some "text/*")).1
  = Return (JS.Str "text/html").
Proof.
  apply (type_wildcard_selects servers (makeAcceptMatcher servers) "text").
  - apply reachable_new.
  - repeat constructor; discriminate.
  - repeat split; done.
Defined.

(** ** Where a type is expected *)

Lemma step_comma (p : Parser) (rest : string) :
  state p = CONTINUE_SUBTYPE \/ state p = EXPECT_COMMA_OR_SEMICOLON ->
  step p "," rest = p1 ← next p; Return (p1, O).
Proof. unfold step. by intros [-> | ->]. Qed.

(** Elements with their commas, read where a type is expected: their
    ranges are pushed and a type is expected again. *)
Lemma loop_elements (es : list Element) (rest : string) :
  forall p0 : Parser,
    state p0 = EXPECT_TYPE ->
    Forall wellFormed es ->
    exists p,
      loop 0 p0 (elementsText es ++ rest) = loop 0 p rest
      /\ state p = EXPECT_TYPE
      /\ accepts p = (accepts p0 ++ map elementRange es)%list.
Proof.
  induction es as [|e es IH]; intros p0 Hst Hes.
  - exists p0. split; [done|]. split; [done|]. by rewrite app_nil_r.
  - apply Forall_cons in Hes as [He Hes]. cbn [elementsText fold_right].
    fold (elementsText es). rewrite append_assoc, append_String.
    destruct (loop_element e (String "," (elementsText es ++ rest)) p0 Hst He)
      as (p & -> & Hp).
    pose proof Hp as (Hs & Hacc & Ha).
    rewrite loop_cons, step_comma by done.
    rewrite (next_element e p He) by (by rewrite Hacc).
    cbn -[loop].
    edestruct IH as (p' & -> & Hst' & Hacc'); [|exact Hes|].
    { reflexivity. }
    exists p'. split; [done|]. split; [done|].
    rewrite Hacc'. cbn. by rewrite Hacc, <- app_assoc.
Qed.

(** X15.  Where a type is expected, at the start of the header or after
    elements and their commas, and after any white space: an asterisk that
    is not followed by a slash raises "Expected '/' after '*'", and a byte
    that is neither white space nor a token byte raises "Unexpected
    character", whatever follows.  A comma there is such a byte, so an
    empty element is an error; the header may however end after a
    comma, and is then read as the elements before it. *)
Theorem where_a_type_is_expected (es : list Element) (w rest : string)
    (c : ascii) :
  Forall wellFormed es ->
  allCodes isWhitespace w = true ->
  (headCode rest <> Some SLASH ->
   parseAccepts (elementsText es ++ w ++ String "*" rest)
   = Throw ExpectedSlashAfterAsterisk)
  /\ (isWhitespace (JS.charCode c) = false ->
      isToken (JS.charCode c) = false ->
      parseAccepts (elementsText es ++ w ++ String c rest)
      = Throw (UnexpectedCharacter c))
  /\ parseAccepts (elementsText es ++ w)
     = Return (sort (fun a z => score z - score a) (map elementRange es)).
Proof.
  intros Hes Hw. repeat split.
  - intros Hslash.
    destruct (loop_elements es (w ++ String "*" rest) initial eq_refl Hes)
      as (p & Hl & Hst & _).
    unfold parseAccepts. rewrite Hl, loop_leading, loop_cons by done.
    unfold step. rewrite Hst. literal_codes. cbn.
    rewrite headCode_test.
    destruct (headCode rest) as [n|]; [|done].
    destruct (Z.eqb_spec n SLASH) as [->|Hn]; [done|]. reflexivity.
  - intros Hc Htok.
    destruct (loop_elements es (w ++ String c rest) initial eq_refl Hes)
      as (p & Hl & Hst & _).
    unfold parseAccepts. rewrite Hl, loop_leading, loop_cons by done.
    unfold step. rewrite Hst, Hc, Htok.
    destruct (JS.charCode c =? ASTERISK) eqn:Ha; [|done].
    apply Z.eqb_eq in Ha. rewrite Ha in Htok. discriminate.
  - destruct (loop_elements es w initial eq_refl Hes)
      as (p & Hl & Hst & Hacc).
    unfold parseAccepts. rewrite Hl.
    rewrite <- (append_empty_r w), loop_leading by done.
    cbn. unfold finish. rewrite decide_True by done. cbn. by rewrite Hacc.
Qed.

Lemma where_a_type_is_expected_witness :
  parseAccepts "text/*, *html" = Throw ExpectedSlashAfterAsterisk
  /\ parseAccepts "text/*, ,image/*" = Throw (UnexpectedCharacter ",")
  /\ parseAccepts "text/*, " = Return [range "text" "*" ∅].
Proof.
  destruct (where_a_type_is_expected [mkElement EmptyString "text" []]
              " " "html" ",") as (H1 & _).
  { constructor; [|constructor]. repeat split; done. }
  { reflexivity. }
  destruct (where_a_type_is_expected [mkElement EmptyString "text" []]
              " " ",image/*" ",") as (_ & H2 & H3).
  { constructor; [|constructor]. repeat split; done. }
  { reflexivity. }
  split; [apply H1; discriminate|].
  split; [apply H2; reflexivity|exact H3].
Defined.

(** ** The digester on well-formed server types *)

Lemma eqb_charCode (c sep : ascii) :
  negb (JS.charCode c =? JS.charCode sep) = true -> Ascii.eqb c sep = false.
Proof.
  intros H%negb_true_iff%Z.eqb_neq. apply Ascii.eqb_neq. congruence.
Qed.

Lemma split_no_separator (sep : ascii) (a : string) :
  noCode (JS.charCode sep) a = true -> JS.split sep a = [a].
Proof.
  induction a as [|c a IH]; [done|]. cbn.
  intros [Hc Ha]%andb_true_iff. by rewrite (eqb_charCode _ _ Hc), IH.
Qed.

Lemma split_at_separator (sep : ascii) (a b : string) :
  noCode (JS.charCode sep) a = true ->
  JS.split sep (a ++ String sep b) = a :: JS.split sep b.
Proof.
  induction a as [|c a IH]; cbn.
  - intros _. change (EmptyString ++ ?s) with s. cbn.
    by rewrite Ascii.eqb_refl.
  - intros [Hc Ha]%andb_true_iff. rewrite append_String. cbn.
    by rewrite (eqb_charCode _ _ Hc), IH.
Qed.

Lemma noCode_app (n : Z) (s t : string) :
  noCode n (s ++ t) = noCode n s && noCode n t.
Proof. apply allCodes_app. Qed.

Lemma mediaParameterText_app (kv : string * string) (r : string) :
  mediaParameterText kv ++ r = String ";" ((kv.1 ++ String "=" kv.2) ++ r).
Proof. unfold mediaParameterText. by rewrite append_String. Qed.

Lemma split_parameters (params : list (string * string)) :
  forall a : string,
    noCode SEMICOLON a = true ->
    Forall (fun kv => noCode SEMICOLON kv.1 = true
                      /\ noCode SEMICOLON kv.2 = true) params ->
    JS.split ";" (a ++ fold_right (fun kv r => mediaParameterText kv ++ r)
                         EmptyString params)
    = a :: map (fun kv => kv.1 ++ String "=" kv.2) params.
Proof.
  induction params as [|[k v] params IH]; intros a Ha Hps; cbn [fold_right map].
  - rewrite append_empty_r. by apply (split_no_separator ";").
  - apply Forall_cons in Hps as [[Hk Hv] Hps]. cbn [fst snd] in *.
    rewrite mediaParameterText_app, (split_at_separator ";") by done.
    cbn [fst snd]. rewrite IH; [done| |done].
    rewrite noCode_app, Hk. cbn. exact Hv.
Qed.

Lemma digestParameter_written (k v : string) :
  noCode EQUALS k = true -> noCode EQUALS v = true ->
  digestParameter (k ++ String "=" v) = (k, Some v).
Proof.
  intros Hk Hv. unfold digestParameter.
  rewrite (split_at_separator "=") by done.
  by rewrite (split_no_separator "=").
Qed.

Lemma digest_fold (params : list (string * string)) :
  forall m : gmap string (option string),
    Forall (fun kv => noCode EQUALS kv.1 = true
                      /\ noCode EQUALS kv.2 = true) params ->
    fold_left (fun m param =>
                 let '(key, val) := digestParameter param in <[key := val]> m)
      (map (fun kv => kv.1 ++ String "=" kv.2) params) m
    = assign (map (fun kv => (kv.1, Some kv.2)) params) m.
Proof.
  induction params as [|[k v] params IH]; intros m Hps; [done|].
  apply Forall_cons in Hps as [[Hk Hv] Hps]. cbn [map fold_left assign fst snd] in *.
  rewrite digestParameter_written by done. by apply IH.
Qed.

(** X16.  The digester reads a well-formed server type back as written:
    for a type and a subtype without slash and semicolon, and parameters
    whose names and values have neither semicolon nor equals sign, the
    digest of [type/subtype;name=value;...] has that type, that subtype
    and those parameters (a later value for a name replacing an earlier
    one), and keeps the string itself as [originalType]. *)
Theorem digest_round_trip (t s : string) (params : list (string * string)) :
  plainMediaType t s params ->
  digest (mediaTypeText t s params)
  = {| digest_type := t;
       digest_subtype := Some s;
       digest_parameters :=
         assign (map (fun kv => (kv.1, Some kv.2)) params) ∅;
       digest_q := JS.one;
       originalType := mediaTypeText t s params |}.
Proof.
  intros (Ht1 & Ht2 & Hs1 & Hs2 & Hps).
  assert (JS.split ";" (mediaTypeText t s params)
          = (t ++ String "/" s)
              :: map (fun kv => kv.1 ++ String "=" kv.2) params) as Hsplit.
  { unfold mediaTypeText.
    rewrite <- (append_String "/" s), <- append_assoc.
    apply split_parameters.
    - rewrite noCode_app, Ht2. cbn. exact Hs2.
    - eapply Forall_impl; [exact Hps|]. by intros kv (? & _ & ? & _). }
  unfold digest. rewrite Hsplit. cbn [hd tl].
  rewrite (split_at_separator "/") by done.
  rewrite (split_no_separator "/") by done. cbn [hd tl head].
  rewrite digest_fold; [done|].
  eapply Forall_impl; [exact Hps|]. by intros kv (_ & ? & _ & ?).
Qed.

Lemma digest_round_trip_witness :
  digest "application/json;charset=utf-8"
  = {| digest_type := "application";
       digest_subtype := Some "json";
       digest_parameters := {[ "charset" := Some "utf-8" ]};
       digest_q := JS.one;
       originalType := "application/json;charset=utf-8" |}.
Proof.
  apply (digest_round_trip "application" "json" [("charset", "utf-8")]).
  repeat split; try reflexivity. repeat constructor.
Defined.

(** ** The quality value *)

(** X17.  The parameter [q] of an element, given with a quoted value: when
    the value is not empty it is handed to [parseFloat]; a result that is
    NaN, below 0 or above 1 raises "q out of range"; any other result
    becomes the [q] of the range, and the parameter is removed.  An empty
    value is not looked at: the range keeps the default [q] and the
    parameter [q] with the empty value. *)
Theorem quoted_quality_value (e : Element) (v : string) :
  wellFormed e ->
  parseAccepts (elementText e ++ parameterText ("q", v)) =
    match v with
    | EmptyString =>
        Return [ range (typeOf e) "*"
                   (<["q" := EmptyString]> (assign (quotedParameters e) ∅)) ]
    | _ =>
        if JS.isNaN (JS.parseFloat v)
           || JS.lt (JS.parseFloat v) JS.zero
           || JS.gt (JS.parseFloat v) JS.one
        then Throw QOutOfRange
        else Return [ set_q (JS.parseFloat v) (elementRange e) ]
    end.
Proof.
  intros He. pose proof He as (_ & _ & Hq).
  assert (assign (quotedParameters e) (∅ : gmap string string) !! "q" = None)
    as Hnone.
  { apply assign_lookup_None; [|done].
    eapply Forall_impl; [exact Hq|]. by intros kv []. }
  destruct (loop_element e (parameterText ("q", v)) initial eq_refl He)
    as (p & Hl & Hs & Hacc & Ha).
  unfold parseAccepts. rewrite Hl.
  rewrite <- (append_empty_r (parameterText ("q", v))).
  rewrite (loop_parameter "q" v _ p (elementRange e)) by done.
  cbn -[next finish]. unfold finish. cbn -[next]. unfold next.
  cbn [currentAccept parameters set_parameters elementRange range].
  rewrite lookup_insert_eq. destruct v as [|c v].
  - cbn. by rewrite Hacc.
  - cbn [truthy default].
    destruct (JS.isNaN _ || _ || _); [done|]. cbn.
    rewrite Hacc. cbn. by rewrite delete_insert_eq, delete_id.
Qed.

Lemma quoted_quality_value_witness :
  parseAccepts ("text/*;q=" ++ quoted "0.5")
  = Return [ set_q (JS.Finite (1 # 2)) (range "text" "*" ∅) ].
Proof.
  apply (quoted_quality_value (mkElement EmptyString "text" []) "0.5").
  repeat split; done.
Defined.

(** ** White space in an element *)

Lemma loop_ows (o rest : string) (p : Parser) :
  state p = EXPECT_PARAMETER_NAME -> allCodes isOWS o = true ->
  loop 0 p (o ++ rest) = loop 0 p rest.
Proof.
  intros Hp. induction o as [|c o IH]; [done|]. cbn [allCodes].
  intros [Hc Ho]%andb_true_iff.
  rewrite append_String, loop_cons. unfold step. rewrite Hp, Hc. cbn -[loop].
  by apply IH.
Qed.

Lemma loop_after_quote (w rest : string) (p : Parser) :
  state p = EXPECT_COMMA_OR_SEMICOLON -> allCodes isWhitespace w = true ->
  loop 0 p (w ++ rest) = loop 0 p rest.
Proof.
  intros Hp. induction w as [|c w IH]; [done|]. cbn [allCodes].
  intros [Hc Hw]%andb_true_iff.
  rewrite append_String, loop_cons. unfold step. rewrite Hp, Hc. cbn -[loop].
  by apply IH.
Qed.

(** X18.  White space inside an element.  Spaces and tabs between the
    semicolon and the name of a parameter, and any white space after the
    closing quote of a value, are skipped.  Directly after the subtype a
    white space byte raises "Unexpected character", and so does, before
    the name of a parameter, a white space byte that is neither a space
    nor a tab. *)
Theorem white_space_in_an_element (e : Element) (k v o w rest : string)
    (c : ascii) :
  wellFormed e ->
  tokenString k -> k <> "q" ->
  allCodes isOWS o = true ->
  allCodes isWhitespace w = true ->
  isWhitespace (JS.charCode c) = true ->
  parseAccepts
    (elementText e
       ++ String ";" (o ++ k ++ String "=" (String dquote (escape v))
                        ++ String dquote w))
  = Return [ range (typeOf e) "*"
               (<[k := v]> (assign (quotedParameters e) ∅)) ]
  /\ parseAccepts (leading e ++ typeOf e ++ "/*" ++ String c rest)
     = Throw (UnexpectedCharacter c)
  /\ (isOWS (JS.charCode c) = false ->
      parseAccepts (elementText e ++ String ";" (o ++ String c rest))
      = Throw (UnexpectedCharacter c)).
Proof.
  intros He Hk Hkq Ho Hw Hc. pose proof He as (Hlead & Htype & Hq).
  assert (isToken (JS.charCode c) = false) as Htok.
  { by apply isToken_not_whitespace. }
  repeat split.
  - match goal with
    | |- parseAccepts (_ ++ ?r) = _ =>
        destruct (loop_element e r initial eq_refl He)
          as (p & Hl & Hs & Hacc & Ha)
    end.
    unfold parseAccepts. rewrite Hl.
    rewrite loop_cons, step_semicolon by done. cbn -[loop].
    rewrite loop_ows by done.
    rewrite (loop_name_value k v _ _ (elementRange e)) by done.
    rewrite loop_cons. unfold step at 1. literal_codes. cbn -[loop].
    rewrite <- (append_empty_r w), loop_after_quote by done.
    cbn -[next finish]. unfold finish. cbn -[next].
    erewrite next_unquoted; [|reflexivity|].
    + cbn. by rewrite Hacc.
    + cbn. rewrite lookup_insert_ne by done.
      rewrite assign_lookup_None; [done| |done].
      eapply Forall_impl; [exact Hq|]. by intros kv [].
  - unfold parseAccepts.
    rewrite loop_leading, loop_type_wildcard by done.
    rewrite loop_cons. unfold step. cbn [state].
    destruct (character_classes (JS.charCode c)) as (_ & _ & Hsep & _).
    destruct (JS.charCode c =? SEMICOLON) eqn:H1.
    { apply Z.eqb_eq in H1. destruct Hsep as [_ Hsep]; [auto|congruence]. }
    destruct (JS.charCode c =? COMMA) eqn:H2.
    { apply Z.eqb_eq in H2. destruct Hsep as [_ Hsep]; [auto|congruence]. }
    by rewrite Htok.
  - intros Hows.
    destruct (loop_element e (String ";" (o ++ String c rest)) initial
                eq_refl He) as (p & Hl & Hs & Hacc & Ha).
    unfold parseAccepts. rewrite Hl.
    rewrite loop_cons, step_semicolon by done. cbn -[loop].
    rewrite loop_ows by done.
    rewrite loop_cons. unfold step. cbn [state set_state].
    by rewrite Hows, Htok.
Qed.

Lemma white_space_in_an_element_witness :
  parseAccepts ("text/*; title=" ++ quoted "a b" ++ "  ")
  = Return [ range "text" "*" {[ "title" := "a b" ]} ]
  /\ parseAccepts "text/* ;title=x" = Throw (UnexpectedCharacter " ").
Proof.
  destruct (white_space_in_an_element (mkElement EmptyString "text" [])
              "title" "a b" " " "  " ";title=x" " ") as (H1 & H2 & _);
    try reflexivity.
  - repeat split; done.
  - by split.
  - discriminate.
  - split; [exact H1|exact H2].
Defined.

(** ** A matcher without server types *)

(** X19.  A matcher built from the empty list answers [undefined] to the
    absent header, and [null] to every header that parses; a header that
    does not parse raises its error all the same. *)
Theorem no_server_types (m : Matcher) (h : string) :
  reachable [] m ->
  (preferredAccept m None).1 = Return JS.Undefined
  /\ (preferredAccept m (Some h)).1 =
       match parseAccepts h with
       | Return _ => Return JS.Null
       | Throw e => Throw e
       end.
Proof.
  intros Hm. split.
  - apply reachable_ok in Hm as (Ht & _). cbn. by rewrite Ht.
  - rewrite (preferredAccept_answer [] m h Hm). by destruct (parseAccepts h).
Qed.

Lemma no_server_types_witness :
  (preferredAccept (makeAcceptMatcher []) None).1 = Return JS.Undefined
  /\ (preferredAccept (makeAcceptMatcher []) (Some "*/*")).1 = Return JS.Null.
Proof.
  apply (no_server_types (makeAcceptMatcher []) "*/*"). apply reachable_new.
Defined.

(** ** The open range *)

Lemma openInv_step (p : Parser) (c : ascii) (rest : string) (p' : Parser)
    (k : nat) :
  openInv p -> step p c rest = Return (p', k) -> openInv p'.
Proof.
  intros Hp H. invert_step H.
  all: try match goal with
       | Hn : next _ = Return _ |- _ =>
           apply next_Return in Hn as (? & ? & ? & -> & _); by intros []
       end.
  all: unfold openInv in *; cbn; rewrite ?Heqs; try done.
  all: intros _; apply Hp; by rewrite Heqs.
Qed.

Lemma openInv_no_null (p : Parser) (c : ascii) (rest : string) :
  openInv p -> step p c rest <> Throw NullDereference.
Proof.
  intros Hp. unfold step.
  destruct (state p) eqn:Hst;
    try (assert (currentAccept p <> None) as Ha
           by (apply Hp; by rewrite Hst);
         destruct (currentAccept p) as [a|] eqn:Hcur; [clear Ha|done]).
  all: unfold withAccept, next; cbn; rewrite ?Hcur.
  all: repeat first
         [ done
         | match goal with
           | |- context [if ?b then _ else _] => destruct b
           | |- context [match ?s with EmptyString => _ | String _ _ => _ end] =>
               destruct s
           end
         | progress cbn ].
Qed.

Lemma loop_no_null (s : string) :
  forall skip p,
    openInv p ->
    loop skip p s <> Throw NullDereference
    /\ forall p', loop skip p s = Return p' -> openInv p'.
Proof.
  induction s as [|c rest IH]; intros skip p Hp; cbn.
  - split; [done|]. by intros p' [= <-].
  - destruct skip as [|k]; [|by apply IH].
    destruct (step p c rest) as [[p1 k]|e] eqn:Hs; cbn.
    + apply IH. by eapply openInv_step.
    + split; [|done]. intros [= ->]. by eapply openInv_no_null.
Qed.

Lemma parseAccepts_no_null (h : string) :
  parseAccepts h <> Throw NullDereference.
Proof.
  unfold parseAccepts.
  destruct (loop_no_null h 0 initial) as [Hno Hinv]; [by intros []|].
  destruct (loop 0 initial h) as [p|e]; cbn; [|congruence].
  specialize (Hinv p eq_refl). unfold finish.
  destruct (decide (state p = EXPECT_TYPE)) as [|Hst]; [done|]. cbn.
  unfold next. destruct (currentAccept p) as [a|] eqn:Ha; [|by apply Hinv in Hst].
  cbn. destruct (truthy _); [|done]. by destruct (JS.isNaN _ || _ || _).
Qed.

(** X20.  The parser never uses [currentAccept!] on [null]: outside
    [EXPECT_TYPE] a range is always open.  So a header is either parsed,
    or rejected with one of the four errors the code raises by [throw]. *)
Theorem parse_outcomes (h : string) :
  (exists l, parseAccepts h = Return l)
  \/ parseAccepts h = Throw QOutOfRange
  \/ parseAccepts h = Throw ExpectedSlashAfterAsterisk
  \/ (exists c, parseAccepts h = Throw (UnexpectedCharacter c))
  \/ parseAccepts h = Throw UnexpectedTerminatingBackslash.
Proof.
  pose proof (parseAccepts_no_null h) as Hno.
  destruct (parseAccepts h) as [l|[| |c| |]]; eauto 6. done.
Qed.
